(** * Ant System for the travelling salesman problem: the engine of script.js

    A shallow embedding of the optimisation core of [src/script.js]
    (pheromone store, tour construction, evaporation and deposit, best-tour
    tracking, and the handlers that change the city set), with the
    properties its specification states about it.

    Modelling conventions.
    - A JavaScript number is a rational [Q] with exact arithmetic; the
      value [Infinity], which only [bestDist] ever holds, has a constructor
      of its own in [jsnum].  Rounding, overflow and NaN are outside the
      model.
    - [Math.random], [Math.hypot] and [Math.pow] belong to the platform and
      are parameters of the development: the [i]-th call of [Math.random]
      returns [random i], and the model state counts the calls made.
    - The global object [pher] is a [gmap string Q] keyed by the strings
      [edgeKey] builds; the [Set] of visited cities is a [gset nat]; arrays
      are lists.
    - A JavaScript exception (reading a property of [undefined]) is [None].
    - Canvas drawing and DOM text updates are not modelled. *)

From stdpp Require Import base gmap sets list strings pretty.
From Stdlib Require Import Ascii QArith Qround Qminmax Qpower Lqa.

Close Scope Q_scope.

(** ** Numbers *)

(** [a < b] on numbers, as a boolean. *)
Definition Qltb (a b : Q) : bool := negb (Qle_bool b a).

(** [v || d] where [v] is the result of a property read: [undefined] and
    [0] are falsy. *)
Definition js_or (v : option Q) (d : Q) : Q :=
  match v with
  | Some q => if Qeq_bool q 0 then d else q
  | None => d
  end.

(** The values [bestDist] takes: [Infinity] or an ordinary number. *)
Inductive jsnum : Type :=
  | Infinity
  | Num (q : Q).

(** [D < b] for an ordinary number [D]. *)
Definition lt_num (D : Q) (b : jsnum) : bool :=
  match b with
  | Infinity => true
  | Num q => Qltb D q
  end.


(** ** Edge keys and the pheromone store *)

(** [function edgeKey(a,b){ return a<b?`${a}-${b}`:`${b}-${a}`; }] *)
Definition edgeKey (a b : nat) : string :=
  if a <? b then pretty a +:+ "-" +:+ pretty b
  else pretty b +:+ "-" +:+ pretty a.

(** The inner loop of [initPheromones]: [for(let j=i+1;j<n;j++)]. *)
Definition initRow (n : nat) (ph : gmap string Q) (i : nat) : gmap string Q :=
  foldl (λ ph j, <[edgeKey i j := 1%Q]> ph) ph (seq (S i) (n - S i)).

(** [initPheromones], for [n = cities.length]. *)
Definition initPheromones (n : nat) : gmap string Q :=
  foldl (initRow n) ∅ (seq 0 n).

(** [for(const k in pher) pher[k] *= (1 - rho)]: the keys are enumerated
    and each entry is overwritten in place. *)
Definition evaporate (rho : Q) (ph : gmap string Q) : gmap string Q :=
  foldl (λ acc k, alter (λ v, v * (1 - rho))%Q k acc) ph (map_to_list ph).*1.

(** The pairs [(t[i], t[i+1])] for [i < t.length-1]. *)
Definition edges (t : list nat) : list (nat * nat) := zip t (tail t).

(** [pher[k] = (pher[k] || 0) + delta] for [k = edgeKey(a,b)]. *)
Definition deposit_edge (delta : Q) (ph : gmap string Q) (e : nat * nat)
  : gmap string Q :=
  let k := edgeKey e.1 e.2 in
  <[k := (js_or (ph !! k) 0 + delta)%Q]> ph.

(** The inner loop of the deposit phase, for one tour. *)
Definition deposit (delta : Q) (t : list nat) (ph : gmap string Q)
  : gmap string Q :=
  foldl (deposit_edge delta) ph (edges t).

(** ** The model state *)

(** A city [{x, y}]. *)
Record City : Type := mkCity { cx : Q; cy : Q }.

(** The globals of the script that the engine reads and writes, and the
    number of [Math.random] calls made so far. *)
Record Model : Type := mkModel {
  cities : list City;
  pher : gmap string Q;
  running : bool;
  iter : nat;
  bestDist : jsnum;
  bestTour : option (list nat);
  draws : nat
}.

(** The slider values read at the head of [runIteration]. *)
Record Params : Type := mkParams {
  alpha : Q;
  beta : Q;
  rho : Q;
  ants : Z
}.

(** The locals of one ant inside the [while] loop. *)
Record Ant : Type := mkAnt {
  visited : gset nat;
  tour : list nat;
  cur : nat;
  used : nat
}.

(** [let r = ...; let chosen = probs[0].j; for(const p of probs){ r -= p.val;
    if(r <= 0){ chosen = p.j; break; } }], after [chosen] was initialised. *)
Fixpoint roulette_scan (r : Q) (probs : list (nat * Q)) (chosen : nat) : nat :=
  match probs with
  | [] => chosen
  | p :: rest =>
      let r' := (r - p.2)%Q in
      if Qle_bool r' 0 then p.1 else roulette_scan r' rest chosen
  end.

(** The roulette with its initialisation; [probs[0].j] throws on an empty
    array. *)
Definition roulette (r : Q) (probs : list (nat * Q)) : option nat :=
  match probs with
  | [] => None
  | p0 :: _ => Some (roulette_scan r probs p0.1)
  end.

(** [denom], accumulated in the order of the pushes. *)
Definition denom_of (probs : list (nat * Q)) : Q :=
  foldl (λ acc p, acc + p.2)%Q 0%Q probs.

(** The best-tour update at the end of the deposit loop body:
    [if(D < bestDist){ bestDist = D; bestTour = t.slice(); }]. *)
Definition update_best (b : jsnum * option (list nat)) (tD : list nat * Q)
  : jsnum * option (list nat) :=
  if lt_num tD.2 b.1 then (Num tD.2, Some tD.1) else b.

Section Engine.

(** The platform functions. *)
Variable random : nat → Q.
Variable hypot : Q → Q → Q.
Variable pow : Q → Q → Q.

(** [function distance(a,b)] *)
Definition distance (a b : City) : Q :=
  let dx := (cx a - cx b)%Q in
  let dy := (cy a - cy b)%Q in
  hypot dx dy.

Section Iteration.

Variable p : Params.
Variable st : Model.

Let n : nat := length (cities st).

(** The body of [for(let j=0;j<n;j++)] for an unvisited [j]: the entry
    pushed on [probs]. *)
Definition candidate (c j : nat) : option (nat * Q) :=
  a ← cities st !! c;
  b ← cities st !! j;
  let key := edgeKey c j in
  let tau := Qmax (js_or (pher st !! key) 0.0001%Q) 1e-6%Q in
  let eta := (1 / (distance a b + 1e-6))%Q in
  let val := (pow tau (alpha p) * pow eta (beta p))%Q in
  Some (j, val).

(** The array [probs] built for the current city. *)
Definition candidates (vis : gset nat) (c : nat) : option (list (nat * Q)) :=
  mapM (candidate c) (filter (λ j, j ∉ vis) (seq 0 n)).

(** One pass through the body of [while(visited.size < n)]. *)
Definition ant_step (a : Ant) : option Ant :=
  probs ← candidates (visited a) (cur a);
  let r := (random (used a) * denom_of probs)%Q in
  chosen ← roulette r probs;
  Some {| visited := {[chosen]} ∪ visited a;
          tour := tour a ++ [chosen];
          cur := chosen;
          used := S (used a) |}.

(** The [while] loop.  Every pass adds a city to [visited] or throws,
    so [n] passes are never needed; [None] is an exception. *)
Fixpoint ant_loop (fuel : nat) (a : Ant) : option Ant :=
  if decide (size (visited a) < n) then
    match fuel with
    | O => None
    | S fuel' => a' ← ant_step a; ant_loop fuel' a'
    end
  else Some a.

(** [k] passes through the loop body, whatever the loop condition. *)
Fixpoint ant_steps (k : nat) (a : Ant) : option Ant :=
  match k with
  | O => Some a
  | S k' => a' ← ant_step a; ant_steps k' a'
  end.

(** [const start = Math.floor(Math.random()*n)] and the ant's initial
    locals.  A draw in [0,1) gives a floor that is not negative, so turning
    it into a [nat] loses nothing. *)
Definition start_city (d : nat) : nat :=
  Z.to_nat (Qfloor (random d * inject_Z (Z.of_nat n))).

Definition ant_init (d : nat) : Ant :=
  let start := start_city d in
  {| visited := {[start]}; tour := [start]; cur := start; used := S d |}.

(** [let D=0; for(...) D += distance(cities[tour[t]], cities[tour[t+1]])] *)
Definition tour_length (t : list nat) : option Q :=
  foldl (λ acc e, D ← acc; a ← cities st !! e.1; b ← cities st !! e.2;
                  Some (D + distance a b)%Q)
        (Some 0%Q) (edges t).

(** The body of [for(let k=0;k<params.ants;k++)]: the tour of one ant,
    its length, and the number of random draws consumed. *)
Definition construct (d : nat) : option (list nat * Q * nat) :=
  a ← ant_loop n (ant_init d);
  let t := tour a ++ [start_city d] in
  D ← tour_length t;
  Some (t, D, used a).

(** The population loop: the arrays [tours] and [tourD], kept as one
    list of pairs since they are always pushed together. *)
Fixpoint build_tours (k : nat) (d : nat) : option (list (list nat * Q) * nat) :=
  match k with
  | O => Some ([], d)
  | S k' =>
      '(t, D, d1) ← construct d;
      '(rest, d2) ← build_tours k' d1;
      Some ((t, D) :: rest, d2)
  end.

End Iteration.

(** The body of the deposit loop [for(let a=0;a<tours.length;a++)],
    on the store and the best-tour record. *)
Definition deposit_step (acc : gmap string Q * (jsnum * option (list nat)))
    (tD : list nat * Q) : gmap string Q * (jsnum * option (list nat)) :=
  let delta := (1 / (tD.2 + 1e-6))%Q in
  (deposit delta tD.1 acc.1, update_best acc.2 tD).

(** [function runIteration()] *)
Definition runIteration (p : Params) (st : Model) : option Model :=
  if decide (length (cities st) < 2) then Some st
  else
    '(tours, d) ← build_tours p st (Z.to_nat (ants p)) (draws st);
    let ph := evaporate (rho p) (pher st) in
    let '(ph', (bd, bt)) :=
      foldl deposit_step (ph, (bestDist st, bestTour st)) tours in
    Some {| cities := cities st; pher := ph'; running := running st;
            iter := S (iter st); bestDist := bd; bestTour := bt;
            draws := d |}.

(** Repeated calls, one parameter reading per call. *)
Fixpoint run_many (ps : list Params) (st : Model) : option Model :=
  match ps with
  | [] => Some st
  | p :: ps' => st' ← runIteration p st; run_many ps' st'
  end.

(** The descending scan of the click handler:
    [for(let i=cities.length-1;i>=0;i--)], returning the index spliced.
    It is entered with [i = length cs], so [cs !! i'] is never [None]. *)
Fixpoint near_index (x y : Q) (cs : list City) (i : nat) : option nat :=
  match i with
  | O => None
  | S i' =>
      match cs !! i' with
      | Some c =>
          if Qltb (hypot (cx c - x) (cy c - y)) 10 then Some i'
          else near_index x y cs i'
      | None => None
      end
  end.

(** The canvas click handler at canvas coordinates [(x, y)]. *)
Definition click (x y : Q) (st : Model) : Model :=
  let cs :=
    match near_index x y (cities st) (length (cities st)) with
    | Some i => delete i (cities st)
    | None => cities st ++ [mkCity x y]
    end in
  {| cities := cs; pher := initPheromones (length cs);
     running := running st; iter := iter st; bestDist := bestDist st;
     bestTour := bestTour st; draws := draws st |}.

(** [function randomizeCities(n)], for a canvas whose client area less
    the padding is [W] by [H]. *)
Definition randomizeCities (W H : Q) (k : nat) (st : Model) : Model :=
  let cs := (λ i, mkCity (32 + random (draws st + 2 * i) * W)
                         (32 + random (draws st + 2 * i + 1) * H))%Q
            <$> seq 0 k in
  {| cities := cs; pher := initPheromones (length cs);
     running := running st; iter := iter st; bestDist := bestDist st;
     bestTour := bestTour st; draws := draws st + 2 * k |}.

End Engine.

(** [function resetModel()] *)
Definition resetModel (st : Model) : Model :=
  {| cities := cities st; pher := ∅; running := false; iter := 0;
     bestDist := Infinity; bestTour := None; draws := draws st |}.

(** The reads of [drawTour(tour, ...)]: the segments from
    [cities[tour[i]]] to [cities[tour[i+1]]] it strokes.  Reading [.x] of a
    city that does not exist throws. *)
Definition drawTour (cs : list City) (t : list nat) : option (list (City * City)) :=
  mapM (λ e, a ← cs !! e.1; b ← cs !! e.2; Some (a, b)) (edges t).

(** The last line of [redrawAll]: [if(bestTour) drawTour(bestTour, ...)]. *)
Definition redraw_best (st : Model) : option (list (City * City)) :=
  match bestTour st with
  | Some t => drawTour (cities st) t
  | None => Some []
  end.

(** ** Concrete platform functions and inputs

    Used to run the model: a random source that alternates between two
    values, the Euclidean norm rounded down to six decimals, and powers
    with the exponent rounded down to an integer. *)

Definition coin (i : nat) : Q := if Nat.even i then (1 # 4)%Q else (3 # 4)%Q.

Definition hypot6 (dx dy : Q) : Q :=
  (inject_Z (Z.sqrt (Qfloor ((dx * dx + dy * dy) * 1000000000000))) / 1000000)%Q.

Definition pow_int (x e : Q) : Q := Qpower x (Qfloor e).

(** The corners of a square of side 10. *)
Definition square : list City :=
  [mkCity 0 0; mkCity 0 10; mkCity 10 10; mkCity 10 0].

(** The state after [randomizeCities] produced [square]. *)
Definition square_model : Model :=
  {| cities := square; pher := initPheromones 4; running := false; iter := 0;
     bestDist := Infinity; bestTour := None; draws := 0 |}.

(** Two cities, a fresh store. *)
Definition pair_model : Model :=
  {| cities := [mkCity 0 0; mkCity 0 10]; pher := initPheromones 2;
     running := false; iter := 0; bestDist := Infinity; bestTour := None;
     draws := 0 |}.

(** The sliders at [alpha = 1], [beta = 2], [rho = 0.5], three ants. *)
Definition square_params : Params :=
  {| alpha := 1; beta := 2; rho := 1 # 2; ants := 3 |}.

(** Three cities, a fresh store, and the parameters for two ants. *)
Definition triangle_model : Model :=
  {| cities := [mkCity 0 0; mkCity 0 10; mkCity 10 10];
     pher := initPheromones 3; running := false; iter := 0;
     bestDist := Infinity; bestTour := None; draws := 0 |}.

Definition triangle_params : Params :=
  {| alpha := 1; beta := 2; rho := 1 # 2; ants := 2 |}.

(** One city, a running model with some history. *)
Definition lone_model : Model :=
  {| cities := [mkCity 3 4]; pher := ∅; running := true; iter := 5;
     bestDist := Num 20; bestTour := Some [0; 1; 0]; draws := 7 |}.


(** ** Predicates and auxiliary functions of the properties *)

(** The value of [r] after the subtractions for [probs[0..i]]. *)
Definition remainder (r : Q) (probs : list (nat * Q)) (i : nat) : Q :=
  foldl (λ acc p, acc - p.2)%Q r (take (S i) probs).

(** No character of the string is a dash. *)
Fixpoint no_dash (s : string) : Prop :=
  match s with
  | EmptyString => True
  | String c s' => c ≠ "-"%char ∧ no_dash s'
  end.

(** The pairs [(i, j)] in the order [initPheromones] visits them. *)
Definition pairs_from (n : nat) (rows : list nat) : list (nat * nat) :=
  i ← rows; (λ j, (i, j)) <$> seq (S i) (n - S i).

(** Writing the initial level under each key of a list. *)
Definition fill (ph : gmap string Q) (ks : list string) : gmap string Q :=
  foldl (λ ph k, <[k := 1%Q]> ph) ph ks.

Definition init_keys (n : nat) : list string :=
  (λ e, edgeKey e.1 e.2) <$> pairs_from n (seq 0 n).

(** The operations on the store, as data. *)
Inductive store_op : Type :=
  | Evaporate (rho : Q)
  | Deposit (delta : Q) (t : list nat).

Definition apply_op (ph : gmap string Q) (op : store_op) : gmap string Q :=
  match op with
  | Evaporate rho => evaporate rho ph
  | Deposit delta t => deposit delta t ph
  end.

(** The parameter domain of the operations: a rate in [0,1], a
    non-negative amount. *)
Definition valid_op (op : store_op) : Prop :=
  match op with
  | Evaporate rho => (0 <= rho)%Q ∧ (rho <= 1)%Q
  | Deposit delta _ => (0 <= delta)%Q
  end.

(** Every stored level is non-negative. *)
Definition nonneg (ph : gmap string Q) : Prop :=
  ∀ k v, ph !! k = Some v → (0 <= v)%Q.


(** The state of an ant at the head of the [while] loop after [k] passes,
    for start city [s] and first draw [d]. *)
Definition ant_inv (n s d k : nat) (a : Ant) : Prop :=
  length (tour a) = S k ∧
  NoDup (tour a) ∧
  visited a = list_to_set (tour a) ∧
  (∀ x, x ∈ tour a → x < n) ∧
  head (tour a) = Some s ∧
  last (tour a) = Some (cur a) ∧
  used a = S d + k.

(** A closed tour over [n] cities: [n+1] entries, the last equal to the
    first, and the first [n] a rearrangement of the indices [0..n-1]. *)
Definition valid_tour (n : nat) (t : list nat) : Prop :=
  length t = n + 1 ∧ head t = last t ∧ take n t ≡ₚ seq 0 n.

Global Instance valid_tour_dec n t : Decision (valid_tour n t).
Proof. unfold valid_tour. apply _. Defined.

(** ** The rest of the script: drawing reads, the driver and its buttons *)

(** [Math.max(pher[key]||0.0001, 1e-6)], the level [candidate] reads for
    an edge. *)
Definition tau_of (ph : gmap string Q) (key : string) : Q :=
  Qmax (js_or (ph !! key) 0.0001%Q) 1e-6%Q.

(** A stored level read with [pher[k] || 0]. *)
Definition level (ph : gmap string Q) (k : string) : Q := js_or (ph !! k) 0.

(** How many steps of the tour run over the edge stored under [k]. *)
Definition edge_count (k : string) (t : list nat) : nat :=
  length (filter (λ e, edgeKey e.1 e.2 = k) (edges t)).

(** The sum of the amounts the ants of one iteration put on the edge
    stored under [k]. *)
Definition deposit_total (k : string) (tours : list (list nat * Q)) : Q :=
  foldr (λ tD acc, inject_Z (Z.of_nat (edge_count k tD.1))
                   * (1 / (tD.2 + 1e-6)) + acc)%Q 0%Q tours.


(** The store holds exactly the keys [initPheromones] creates for the
    cities of the state. *)
Definition canonical_store (st : Model) : Prop :=
  dom (pher st) = list_to_set (init_keys (length (cities st))).

(** The best-tour record is empty, or it is a closed tour over the cities
    of the state together with its own length. *)
Definition record_consistent (hypot : Q → Q → Q) (cs : list City)
    (b : jsnum * option (list nat)) : Prop :=
  match b with
  | (Infinity, None) => True
  | (Num D, Some t) =>
      valid_tour (length cs) t ∧
      foldl (λ acc e, D ← acc; a ← cs !! e.1; b ← cs !! e.2;
                      Some (D + distance hypot a b)%Q)
            (Some 0%Q) (edges t) = Some D
  | _ => False
  end.

Definition best_consistent (hypot : Q → Q → Q) (st : Model) : Prop :=
  record_consistent hypot (cities st) (bestDist st, bestTour st).

(** [Math.hypot(c.x - x, c.y - y) < 10], the test of the click handler. *)
Definition near (hypot : Q → Q → Q) (x y : Q) (c : City) : bool :=
  Qltb (hypot (cx c - x)%Q (cy c - y)%Q) 10.

(** One line stroked by [drawEdges]: its end points, the opacity in
    [strokeStyle] and [lineWidth]. *)
Record Stroke : Type := mkStroke {
  s_from : City;
  s_to : City;
  s_alpha : Q;
  s_width : Q
}.

Section Drawing.

(** [Math.tanh] belongs to the platform. *)
Variable tanh : Q → Q.

(** The body of the inner loop of [drawEdges] for the key [k]: the level
    clamped at 0, then the opacity and the width. *)
Definition edge_style (ph : gmap string Q) (k : string) : Q * Q :=
  let p := Qmax (js_or (ph !! k) 0) 0 in
  let alpha := Qmin 0.9 (0.06 + tanh p * 0.85)%Q in
  let w := (1 + tanh p * 4.5)%Q in
  (alpha, w).

(** [function drawEdges()]: one stroke for every pair [i < j], in the
    order of the two loops. *)
Definition drawEdges (st : Model) : option (list Stroke) :=
  mapM (λ e, let k := edgeKey e.1 e.2 in
             let style := edge_style (pher st) k in
             a ← cities st !! e.1;
             b ← cities st !! e.2;
             Some (mkStroke a b style.1 style.2))
       (pairs_from (length (cities st)) (seq 0 (length (cities st)))).

(** [function redrawAll()]: the strokes of [drawEdges] and the segments
    of the best tour; [drawCities] reads nothing that can be missing. *)
Definition redrawAll (st : Model) : option (list Stroke * list (City * City)) :=
  strokes ← drawEdges st;
  segs ← redraw_best st;
  Some (strokes, segs).

End Drawing.

(** The globals of the animation loop next to the model: [lastTick] and
    whether a frame is requested ([animId] holds a live handle). *)
Record Driver : Type := mkDriver {
  model : Model;
  lastTick : Q;
  frame_requested : bool
}.

(** Assignment to the global [running]. *)
Definition set_running (b : bool) (st : Model) : Model :=
  {| cities := cities st; pher := pher st; running := b; iter := iter st;
     bestDist := bestDist st; bestTour := bestTour st; draws := draws st |}.

(** [600 / Math.max(0.25, speed)] *)
Definition msPerIter (speed : Q) : Q := (600 / Qmax 0.25 speed)%Q.

Section Animation.

Variable random : nat → Q.
Variable hypot : Q → Q → Q.
Variable pow : Q → Q → Q.
Variable tanh : Q → Q.

(** [runIteration] with the [redrawAll()] that ends it; the guard on the
    number of cities returns before any drawing. *)
Definition runIteration_drawn (p : Params) (st : Model) : option Model :=
  if decide (length (cities st) < 2) then Some st
  else
    st' ← runIteration random hypot pow p st;
    _ ← redrawAll tanh st';
    Some st'.

(** [function animate(time)], for the speed slider at [speed]. *)
Definition animate (speed : Q) (p : Params) (time : Q) (dr : Driver)
  : option Driver :=
  if negb (running (model dr)) then
    Some {| model := model dr; lastTick := lastTick dr;
            frame_requested := false |}
  else
    '(st, tick) ←
      (if Qle_bool (msPerIter speed) (time - lastTick dr) then
         st' ← runIteration_drawn p (model dr); Some (st', time)
       else Some (model dr, lastTick dr));
    _ ← redraw_best st;
    Some {| model := st; lastTick := tick; frame_requested := true |}.

End Animation.

(** The click handler of the start button, at [performance.now() = now]. *)
Definition start_click (now : Q) (dr : Driver) : Driver :=
  if decide (length (cities (model dr)) < 2) then dr
  else if running (model dr) then dr
  else {| model := set_running true (model dr); lastTick := now;
          frame_requested := true |}.

(** The click handler of the pause button. *)
Definition pause_click (dr : Driver) : Driver :=
  {| model := set_running false (model dr); lastTick := lastTick dr;
     frame_requested := frame_requested dr |}.

(** The click handler of the reset button: [resetModel(); randomizeCities(12)]. *)
Definition reset_click (random : nat → Q) (W H : Q) (st : Model) : Model :=
  randomizeCities random W H 12 (resetModel st).

(** A rational function with the range of [Math.tanh] on non-negative
    arguments, used to run the drawing code. *)
Definition tanh_rat (p : Q) : Q := (p / (1 + p))%Q.


(** * Properties *)

(** ** Edge keys *)

Lemma pretty_N_go_no_dash x s : no_dash s → no_dash (pretty_N_go x s).
Proof.
  revert s. induction (N.lt_wf_0 x) as [x _ IH]; intros s Hs.
  destruct (decide (x = 0%N)) as [->|Hx]; [by rewrite pretty_N_go_0|].
  rewrite pretty_N_go_step by lia. apply IH.
  - apply N.div_lt; lia.
  - split; [|done]. unfold pretty_N_char. by repeat case_match.
Qed.

Lemma pretty_nat_no_dash (n : nat) : no_dash (pretty n).
Proof.
  unfold pretty, pretty_nat, pretty, pretty_N.
  case_decide; [by repeat split|]. by apply pretty_N_go_no_dash.
Qed.

Lemma dash_split s1 s2 t1 t2 :
  no_dash s1 → no_dash s2 →
  s1 +:+ "-" +:+ t1 = s2 +:+ "-" +:+ t2 → s1 = s2 ∧ t1 = t2.
Proof.
  revert s2. induction s1 as [|c s1 IH]; intros [|d s2] H1 H2 Heq;
    simpl in *.
  - by simplify_eq.
  - destruct H2 as [Hd _]. by simplify_eq.
  - destruct H1 as [Hc _]. by simplify_eq.
  - destruct H1 as [_ H1], H2 as [_ H2]. simplify_eq.
    destruct (IH s2 H1 H2) as [-> ->]; done.
Qed.

Lemma edgeKey_lt a b : a < b → edgeKey a b = pretty a +:+ "-" +:+ pretty b.
Proof.
  intros Hab. unfold edgeKey. by destruct (Nat.ltb_spec a b); [|lia].
Qed.

Lemma edgeKey_inj a b a' b' :
  a < b → a' < b' → edgeKey a b = edgeKey a' b' → a = a' ∧ b = b'.
Proof.
  intros Hab Hab'. rewrite !edgeKey_lt by done. intros Heq.
  apply dash_split in Heq as [Ha Hb]; auto using pretty_nat_no_dash.
  split; by apply (inj pretty).
Qed.

Lemma edgeKey_sym a b : edgeKey a b = edgeKey b a.
Proof.
  unfold edgeKey.
  destruct (Nat.ltb_spec a b), (Nat.ltb_spec b a); try done; try lia.
  by replace a with b by lia.
Qed.

(** ** Initialisation of the store *)

Lemma initRows_fill n rows ph :
  foldl (initRow n) ph rows
  = fill ph ((λ e, edgeKey e.1 e.2) <$> pairs_from n rows).
Proof.
  revert ph. induction rows as [|i rows IH]; intros ph; [done|].
  unfold pairs_from in *. cbn [foldl mbind list_bind].
  rewrite fmap_app. unfold fill in *. rewrite foldl_app, IH. f_equal.
  unfold initRow. by rewrite <- list_fmap_compose, foldl_fmap.
Qed.

Lemma initPheromones_fill n : initPheromones n = fill ∅ (init_keys n).
Proof. apply initRows_fill. Qed.

Lemma fill_lookup ks ph k :
  fill ph ks !! k = if decide (k ∈ ks) then Some 1%Q else ph !! k.
Proof.
  revert ph. induction ks as [|k' ks IH]; intros ph.
  - case_decide as Hin; [by apply elem_of_nil in Hin|done].
  - cbn [fill foldl]. fold (fill (<[k':=1%Q]> ph) ks). rewrite IH.
    destruct (decide (k ∈ ks)) as [Hin|Hin].
    { by rewrite decide_True by (apply elem_of_cons; auto). }
    destruct (decide (k = k')) as [Heq|Hne].
    + rewrite decide_True by (apply elem_of_cons; auto).
      by rewrite Heq, lookup_insert_eq.
    + rewrite decide_False by (rewrite elem_of_cons; tauto).
      by rewrite lookup_insert_ne.
Qed.

Lemma fill_size ks ph :
  NoDup ks → (∀ k, k ∈ ks → ph !! k = None) →
  size (fill ph ks) = size ph + length ks.
Proof.
  revert ph. induction ks as [|k ks IH]; intros ph Hnd Hfresh.
  - simpl. lia.
  - apply NoDup_cons in Hnd as [Hk Hnd].
    cbn [fill foldl]. fold (fill (<[k:=1%Q]> ph) ks). rewrite IH; [|done|].
    + rewrite map_size_insert_None by (apply Hfresh; set_solver).
      simpl. lia.
    + intros k' Hk'. rewrite lookup_insert_ne by set_solver.
      apply Hfresh. set_solver.
Qed.

Lemma elem_of_pairs_from n rows i j :
  (i, j) ∈ pairs_from n rows ↔ i ∈ rows ∧ i < j < n.
Proof.
  unfold pairs_from. rewrite list_elem_of_bind. split.
  - intros (i' & Hj & Hi). apply list_elem_of_fmap in Hj as (j' & [= -> ->] & Hj).
    apply elem_of_seq in Hj. split; [done|lia].
  - intros [Hi Hj]. exists i. split; [|done].
    apply list_elem_of_fmap. exists j. split; [done|]. apply elem_of_seq. lia.
Qed.

Lemma pairs_from_NoDup n rows : NoDup rows → NoDup (pairs_from n rows).
Proof.
  intros Hnd. apply NoDup_bind; [| |done].
  - intros i1 i2 [i j] _ _ H1 H2.
    apply list_elem_of_fmap in H1 as (? & [= -> ->] & _).
    by apply list_elem_of_fmap in H2 as (? & [= -> ->] & _).
  - intros i _. apply NoDup_fmap_2; [|apply NoDup_seq].
    by intros ?? [= ->].
Qed.

Lemma init_keys_NoDup n : NoDup (init_keys n).
Proof.
  apply NoDup_fmap_2_strong; [|apply pairs_from_NoDup, NoDup_seq].
  intros [i j] [i' j'] Hin Hin' Heq.
  apply elem_of_pairs_from in Hin as [_ ?], Hin' as [_ ?]. simpl in Heq.
  apply edgeKey_inj in Heq as [-> ->]; [done|lia..].
Qed.

Lemma pairs_from_length k : ∀ a,
  2 * length (pairs_from (a + k) (seq a k)) = k * (k - 1).
Proof.
  induction k as [|k IH]; intros a; [done|].
  unfold pairs_from in *. cbn [seq mbind list_bind].
  rewrite length_app, length_fmap, length_seq.
  specialize (IH (S a)). replace (S a + k) with (a + S k) in IH by lia.
  nia.
Qed.

Lemma init_keys_length n : length (init_keys n) = n * (n - 1) / 2.
Proof.
  unfold init_keys. rewrite length_fmap.
  pose proof (pairs_from_length n 0) as Hlen. simpl in Hlen.
  apply Nat.div_unique_exact; lia.
Qed.

Lemma initPheromones_lookup n k :
  initPheromones n !! k = if decide (k ∈ init_keys n) then Some 1%Q else None.
Proof. by rewrite initPheromones_fill, fill_lookup, lookup_empty. Qed.

Lemma initPheromones_key n a b :
  a < n → b < n → a ≠ b → initPheromones n !! edgeKey a b = Some 1%Q.
Proof.
  intros Ha Hb Hab. rewrite initPheromones_lookup, decide_True; [done|].
  unfold init_keys. apply list_elem_of_fmap.
  destruct (decide (a < b)).
  - exists (a, b). split; [done|].
    apply elem_of_pairs_from. rewrite elem_of_seq. lia.
  - exists (b, a). split; [apply edgeKey_sym|].
    apply elem_of_pairs_from. rewrite elem_of_seq. lia.
Qed.

(** C9: the key of an edge does not depend on its direction, and the store
    initialised for [n] cities holds exactly [n*(n-1)/2] keys, every one
    of them with level 1. *)
Theorem edgeKey_canonical_init_count :
  (∀ a b : nat, edgeKey a b = edgeKey b a) ∧
  (∀ n : nat,
     size (initPheromones n) = n * (n - 1) / 2 ∧
     (∀ k v, initPheromones n !! k = Some v → v = 1%Q) ∧
     (∀ a b, a < n → b < n → a ≠ b →
        initPheromones n !! edgeKey a b = Some 1%Q)).
Proof.
  split; [apply edgeKey_sym|]. intros n. split; [|split].
  - rewrite initPheromones_fill, fill_size, map_size_empty.
    + by rewrite init_keys_length.
    + apply init_keys_NoDup.
    + intros k _. apply lookup_empty.
  - intros k v. rewrite initPheromones_lookup. case_decide; congruence.
  - apply initPheromones_key.
Qed.

(** ** Evaporation and deposit *)

Lemma alter_keys_lookup (f : Q → Q) ks (ph : gmap string Q) k :
  NoDup ks →
  foldl (λ acc k', alter f k' acc) ph ks !! k
  = if decide (k ∈ ks) then f <$> ph !! k else ph !! k.
Proof.
  revert ph. induction ks as [|k' ks IH]; intros ph Hnd.
  - case_decide as Hin; [by apply elem_of_nil in Hin|done].
  - apply NoDup_cons in Hnd as [Hk' Hnd]. cbn [foldl]. rewrite IH by done.
    destruct (decide (k = k')) as [Heq|Hne].
    + subst k'. rewrite decide_False by done.
      rewrite decide_True by (apply elem_of_cons; auto).
      by rewrite lookup_alter_eq.
    + rewrite lookup_alter_ne by done.
      destruct (decide (k ∈ ks)) as [Hin|Hin].
      * by rewrite decide_True by (apply elem_of_cons; auto).
      * by rewrite decide_False by (rewrite elem_of_cons; tauto).
Qed.

Lemma evaporate_lookup rho ph k :
  evaporate rho ph !! k = (λ v, v * (1 - rho))%Q <$> ph !! k.
Proof.
  unfold evaporate. rewrite alter_keys_lookup by apply NoDup_fst_map_to_list.
  case_decide as Hin; [done|].
  destruct (ph !! k) as [v|] eqn:Hk; [|done].
  destruct Hin. apply list_elem_of_fmap. exists (k, v). split; [done|].
  by apply elem_of_map_to_list.
Qed.

Lemma evaporate_fmap rho ph : evaporate rho ph = (λ v, v * (1 - rho))%Q <$> ph.
Proof. apply map_eq. intros k. by rewrite evaporate_lookup, lookup_fmap. Qed.

Lemma Qmult_one_minus_zero (v : Q) : (v * (1 - 0))%Q = v.
Proof.
  destruct v as [a b]. unfold Qmult, Qminus, Qplus, Qopp. simpl.
  by rewrite Z.mul_1_r, Pos.mul_1_r.
Qed.

Lemma evaporate_zero ph : evaporate 0 ph = ph.
Proof.
  apply map_eq. intros k. rewrite evaporate_lookup.
  destruct (ph !! k) as [v|]; [|done]. simpl. by rewrite Qmult_one_minus_zero.
Qed.

Lemma evaporate_nonneg rho ph : (rho <= 1)%Q → nonneg ph → nonneg (evaporate rho ph).
Proof.
  intros Hrho Hph k v. rewrite evaporate_lookup.
  destruct (ph !! k) as [w|] eqn:Hk; [|done]. intros [= <-].
  apply Qmult_le_0_compat; [by eapply Hph|lra].
Qed.

Lemma js_or_zero_nonneg (ph : gmap string Q) k :
  nonneg ph → (0 <= js_or (ph !! k) 0)%Q.
Proof.
  intros Hph. unfold js_or. destruct (ph !! k) as [v|] eqn:Hk; [|lra].
  destruct (Qeq_bool v 0); [lra|by eapply Hph].
Qed.

Lemma deposit_edge_nonneg delta ph e :
  (0 <= delta)%Q → nonneg ph → nonneg (deposit_edge delta ph e).
Proof.
  intros Hd Hph k v. unfold deposit_edge. cbn zeta.
  destruct (decide (edgeKey e.1 e.2 = k)) as [->|Hne].
  - rewrite lookup_insert_eq. intros [= <-].
    pose proof (js_or_zero_nonneg ph k Hph). lra.
  - rewrite lookup_insert_ne by done. apply Hph.
Qed.

Lemma deposit_nonneg delta t ph :
  (0 <= delta)%Q → nonneg ph → nonneg (deposit delta t ph).
Proof.
  intros Hd. unfold deposit. generalize (edges t) as es.
  intros es. revert ph. induction es as [|e es IH]; intros ph Hph; [done|].
  simpl. by apply IH, deposit_edge_nonneg.
Qed.


Lemma apply_op_nonneg ph op : valid_op op → nonneg ph → nonneg (apply_op ph op).
Proof.
  destruct op as [rho|delta t]; simpl.
  - intros [_ Hrho]. by apply evaporate_nonneg.
  - apply deposit_nonneg.
Qed.

Lemma apply_ops_nonneg ops : ∀ ph,
  Forall valid_op ops → nonneg ph → nonneg (foldl apply_op ph ops).
Proof.
  induction ops as [|op ops IH]; intros ph Hops Hph; [done|].
  apply Forall_cons in Hops as [Hop Hops]. simpl.
  by apply IH, apply_op_nonneg.
Qed.



(** C8 (amended): evaporation multiplies every stored level by [1 - rho]
    for the rate exactly as it is passed, whatever its value; the keys stay
    the same, rate 0 leaves the store unchanged and rate 1 sends every
    level to zero. *)
Theorem evaporate_scales_every_level (rho : Q) (ph : gmap string Q) :
  (∀ k, evaporate rho ph !! k = (λ v, v * (1 - rho))%Q <$> ph !! k) ∧
  dom (evaporate rho ph) = dom ph ∧
  evaporate 0 ph = ph ∧
  (∀ k v, evaporate 1 ph !! k = Some v → (v == 0)%Q).
Proof.
  split; [apply evaporate_lookup|]. split; [|split].
  - rewrite evaporate_fmap. apply dom_fmap_L.
  - apply evaporate_zero.
  - intros k v. rewrite evaporate_lookup.
    destruct (ph !! k) as [w|]; [|done]. intros [= <-]. lra.
Qed.

Section EngineFacts.

Variable random : nat → Q.
Variable hypot : Q → Q → Q.
Variable pow : Q → Q → Q.

Lemma runIteration_guard (p : Params) (st : Model) :
  length (cities st) < 2 → runIteration random hypot pow p st = Some st.
Proof. intros Hn. unfold runIteration. by rewrite decide_True. Qed.

(** C7: with fewer than two cities [runIteration] returns at once and
    the whole state, store, best-tour record and iteration counter
    included, is as it was. *)
Theorem runIteration_insufficient_cities (p : Params) (st : Model) :
  length (cities st) < 2 →
  ∃ st', runIteration random hypot pow p st = Some st' ∧
         st' = st ∧ pher st' = pher st ∧ bestDist st' = bestDist st ∧
         bestTour st' = bestTour st ∧ iter st' = iter st.
Proof.
  intros Hn. exists st. by rewrite runIteration_guard.
Qed.

Lemma runIteration_no_ants (p : Params) (st : Model) :
  ants p = 0%Z → 2 ≤ length (cities st) →
  runIteration random hypot pow p st
  = Some {| cities := cities st; pher := evaporate (rho p) (pher st);
            running := running st; iter := S (iter st);
            bestDist := bestDist st; bestTour := bestTour st;
            draws := draws st |}.
Proof.
  intros Hants Hn. unfold runIteration.
  rewrite decide_False by lia. by rewrite Hants.
Qed.

(** C2 (amended): with [ants = 0] the call returns with the best-tour
    record unchanged and nothing deposited; on two or more cities it
    still evaporates the whole store by [1 - rho] and counts the
    iteration. *)
Theorem runIteration_zero_ants (p : Params) (st : Model) :
  ants p = 0%Z →
  ∃ st', runIteration random hypot pow p st = Some st' ∧
    bestDist st' = bestDist st ∧ bestTour st' = bestTour st ∧
    cities st' = cities st ∧
    (2 ≤ length (cities st) →
       pher st' = evaporate (rho p) (pher st) ∧ iter st' = S (iter st)).
Proof.
  intros Hants. destruct (decide (length (cities st) < 2)) as [Hn|Hn].
  - exists st. rewrite runIteration_guard by done.
    repeat split; lia.
  - eexists. rewrite runIteration_no_ants by (done || lia).
    repeat split; done.
Qed.

End EngineFacts.

Lemma runIteration_insufficient_cities_witness :
  ∃ st', runIteration coin hypot6 pow_int (mkParams 1 2 (1 # 2) 10)
           lone_model = Some st' ∧
         st' = lone_model ∧ pher st' = pher lone_model ∧
         bestDist st' = bestDist lone_model ∧
         bestTour st' = bestTour lone_model ∧ iter st' = iter lone_model.
Proof.
  apply (runIteration_insufficient_cities coin hypot6 pow_int
           (mkParams 1 2 (1 # 2) 10) lone_model).
  simpl. lia.
Defined.

Lemma runIteration_zero_ants_witness :
  ∃ st', runIteration coin hypot6 pow_int (mkParams 1 2 (1 # 2) 0) square_model
         = Some st' ∧
    bestDist st' = Infinity ∧ bestTour st' = None ∧ cities st' = square ∧
    (2 ≤ length square →
       pher st' = evaporate (1 # 2) (initPheromones 4) ∧ iter st' = 1).
Proof.
  apply (runIteration_zero_ants coin hypot6 pow_int
           (mkParams 1 2 (1 # 2) 0) square_model).
  reflexivity.
Defined.

(** C2 as stated fails: with no ants and rate 1/2 the call halves the
    level of the only edge of a two-city store and counts an iteration. *)
Lemma zero_ants_mutates_store :
  ∃ st', runIteration coin hypot6 pow_int (mkParams 1 2 (1 # 2) 0) pair_model
         = Some st' ∧
    pher pair_model !! "0-1" = Some 1%Q ∧
    pher st' !! "0-1" = Some (1 # 2)%Q ∧
    pher st' ≠ pher pair_model ∧
    iter pair_model = 0 ∧ iter st' = 1.
Proof.
  eexists. split; [vm_compute; reflexivity|].
  repeat split; try (vm_compute; reflexivity).
  intros Heq. apply (f_equal (λ m : gmap string Q, m !! "0-1")) in Heq.
  vm_compute in Heq. discriminate.
Qed.

(** C8 as stated fails: a rate of 2 is neither clamped nor rejected; the
    call goes through and multiplies the level by [1 - 2], which no rate in
    [0,1] produces. *)
Lemma evaporation_rate_not_clamped :
  ∃ st', runIteration coin hypot6 pow_int (mkParams 1 2 2 0) pair_model
         = Some st' ∧
    pher pair_model !! "0-1" = Some 1%Q ∧
    pher st' !! "0-1" = Some (-1)%Q ∧
    iter st' = 1 ∧
    ¬ ∃ rho', (0 <= rho')%Q ∧ (rho' <= 1)%Q ∧ (-1 == 1 * (1 - rho'))%Q.
Proof.
  eexists. split; [vm_compute; reflexivity|].
  repeat split; try (vm_compute; reflexivity).
  intros (rho' & H0 & H1 & Heq). lra.
Qed.

(** ** Roulette selection *)





Lemma roulette_scan_elem probs : ∀ r c,
  roulette_scan r probs c = c ∨ roulette_scan r probs c ∈ probs.*1.
Proof.
  induction probs as [|p ps IH]; intros r c; [by left|].
  cbn [roulette_scan]. cbv zeta. destruct (Qle_bool (r - p.2) 0).
  - right. apply elem_of_cons. by left.
  - destruct (IH (r - p.2)%Q c) as [Hc|Hin]; [by left|].
    right. rewrite fmap_cons. apply elem_of_cons. by right.
Qed.

Lemma roulette_elem r probs :
  probs ≠ [] → ∃ chosen, roulette r probs = Some chosen ∧ chosen ∈ probs.*1.
Proof.
  destruct probs as [|p0 ps]; [done|]. intros _. eexists. split; [done|].
  destruct (roulette_scan_elem (p0 :: ps) r p0.1) as [->|Hin]; [|done].
  rewrite fmap_cons. apply elem_of_cons. by left.
Qed.

Lemma remainder_denom (probs : list (nat * Q)) : ∀ r s,
  (foldl (λ acc p, acc - p.2) r probs + foldl (λ acc p, acc + p.2) s probs
   == r + s)%Q.
Proof.
  induction probs as [|p ps IH]; intros r s; [reflexivity|].
  cbn [foldl]. rewrite IH. ring.
Qed.

Lemma denom_of_pos (probs : list (nat * Q)) :
  probs ≠ [] → Forall (λ q, (0 < q.2)%Q) probs → (0 < denom_of probs)%Q.
Proof.
  intros Hne Hpos. unfold denom_of.
  assert (∀ s, (0 <= s)%Q → (s < foldl (λ acc p, acc + p.2) s probs)%Q ∨
                              probs = []) as Hgen.
  { clear Hne. induction Hpos as [|q qs Hq _ IH]; intros s Hs; [by right|].
    left. cbn [foldl]. destruct (IH (s + q.2)%Q) as [Hlt | ->]; [lra|lra|].
    simpl. lra. }
  destruct (Hgen 0%Q) as [Hlt|]; [lra|lra|done].
Qed.

(** With exact arithmetic the scan always ends at a hit: a draw below 1
    puts [r] below the sum of the weights, so the remainder after the last
    candidate is negative. *)
Lemma roulette_hit_exists (u : Q) (probs : list (nat * Q)) :
  probs ≠ [] → Forall (λ q, (0 < q.2)%Q) probs → (u < 1)%Q →
  (remainder (u * denom_of probs) probs (length probs - 1) <= 0)%Q.
Proof.
  intros Hne Hpos Hu. pose proof (denom_of_pos probs Hne Hpos) as Hden.
  unfold remainder.
  rewrite take_ge by (destruct probs; [done|simpl; lia]).
  pose proof (remainder_denom probs (u * denom_of probs)%Q 0%Q) as Hsum.
  fold (denom_of probs) in Hsum.
  assert (u * denom_of probs < denom_of probs)%Q; [|lra].
  rewrite <- (Qmult_1_l (denom_of probs)) at 2.
  by apply Qmult_lt_compat_r.
Qed.




(** ** The best-tour record *)

Lemma Qltb_lt a b : Qltb a b = true ↔ (a < b)%Q.
Proof.
  unfold Qltb. rewrite negb_true_iff. split.
  - intros Hf. apply Qnot_le_lt. intros Hle.
    apply Qle_bool_iff in Hle. congruence.
  - intros Hlt. destruct (Qle_bool b a) eqn:Hle; [|done].
    apply Qle_bool_iff in Hle. lra.
Qed.









Lemma deposit_step_best tours : ∀ ph b,
  (foldl deposit_step (ph, b) tours).2 = foldl update_best b tours.
Proof.
  induction tours as [|tD tours IH]; intros ph b; [done|].
  simpl. unfold deposit_step at 2. cbn [fst snd]. apply IH.
Qed.

(** ** Tour construction *)

Lemma ant_inv_size n s d k a : ant_inv n s d k a → size (visited a) = S k.
Proof.
  intros (Hlen & Hnd & Hvis & _). rewrite Hvis, size_list_to_set by done. done.
Qed.

Lemma unvisited_nonempty (n : nat) (vis : gset nat) :
  size vis < n → filter (λ j, j ∉ vis) (seq 0 n) ≠ [].
Proof.
  intros Hsize Hnil.
  assert (list_to_set (seq 0 n) ⊆ vis) as Hsub.
  { intros j Hj. apply elem_of_list_to_set in Hj.
    destruct (decide (j ∈ vis)) as [|Hout]; [done|].
    by destruct (filter_nil_not_elem_of _ _ j Hnil Hout). }
  apply subseteq_size in Hsub.
  rewrite size_list_to_set, length_seq in Hsub by apply NoDup_seq. lia.
Qed.

Lemma Qfloor_scaled_range (u : Q) (n : nat) :
  (0 <= u)%Q → (u < 1)%Q → 0 < n →
  Z.to_nat (Qfloor (u * inject_Z (Z.of_nat n))) < n.
Proof.
  intros H0 H1 Hn.
  assert (0 < inject_Z (Z.of_nat n))%Q as Hpos.
  { replace 0%Q with (inject_Z 0) by done. rewrite <- Zlt_Qlt. lia. }
  assert (0 <= Qfloor (u * inject_Z (Z.of_nat n)))%Z as Hlo.
  { rewrite <- (Qfloor_Z 0). apply Qfloor_resp_le. simpl.
    apply Qmult_le_0_compat; lra. }
  assert (Qfloor (u * inject_Z (Z.of_nat n)) < Z.of_nat n)%Z as Hhi.
  { rewrite Zlt_Qlt. eapply Qle_lt_trans; [apply Qfloor_le|].
    rewrite <- (Qmult_1_l (inject_Z (Z.of_nat n))) at 2.
    apply Qmult_lt_compat_r; done. }
  lia.
Qed.

Section TourConstruction.

Variable random : nat → Q.
Variable hypot : Q → Q → Q.
Variable pow : Q → Q → Q.
Variable p : Params.
Variable st : Model.

Local Abbreviation n := (length (cities st)).
Local Abbreviation unvisited vis := (filter (λ j, j ∉ vis) (seq 0 n)).

Lemma candidate_some c j :
  c < n → j < n → ∃ v, candidate hypot pow p st c j = Some (j, v).
Proof.
  intros Hc Hj. unfold candidate.
  destruct (lookup_lt_is_Some_2 (cities st) c Hc) as [a ->].
  destruct (lookup_lt_is_Some_2 (cities st) j Hj) as [b ->].
  simpl. eauto.
Qed.

Lemma candidate_fst c j q : candidate hypot pow p st c j = Some q → q.1 = j.
Proof.
  unfold candidate. destruct (cities st !! c); [|done].
  destruct (cities st !! j); [|done]. simpl. by intros [= <-].
Qed.

Lemma candidates_some (vis : gset nat) c :
  c < n →
  ∃ probs, candidates hypot pow p st vis c = Some probs ∧
           probs.*1 = unvisited vis.
Proof.
  intros Hc. unfold candidates.
  destruct (mapM (candidate hypot pow p st c) (unvisited vis))
    as [probs|] eqn:Hm.
  - exists probs. split; [done|].
    eapply mapM_fmap_Some_inv; [done|]. intros j q. apply candidate_fst.
  - apply mapM_None_1, Exists_exists in Hm as (j & Hj & Hnone).
    apply list_elem_of_filter in Hj as [_ Hj]. apply elem_of_seq in Hj.
    destruct (candidate_some c j) as [v Hv]; [done|lia|]. congruence.
Qed.

Lemma ant_step_inv s d k a :
  ant_inv n s d k a → S k < n →
  ∃ probs chosen a',
    candidates hypot pow p st (visited a) (cur a) = Some probs ∧
    probs ≠ [] ∧
    probs.*1 = unvisited (visited a) ∧
    roulette (random (used a) * denom_of probs) probs = Some chosen ∧
    chosen ∈ probs.*1 ∧
    ant_step random hypot pow p st a = Some a' ∧
    visited a' = {[chosen]} ∪ visited a ∧
    tour a' = tour a ++ [chosen] ∧
    ant_inv n s d (S k) a'.
Proof.
  intros Hinv Hk. pose proof (ant_inv_size _ _ _ _ _ Hinv) as Hsize.
  destruct Hinv as (Hlen & Hnd & Hvis & Hlt & Hhead & Hlast & Hused).
  assert (cur a < n) as Hcur.
  { apply Hlt. apply last_Some in Hlast as [l' ->].
    apply elem_of_app. right. by apply list_elem_of_singleton. }
  destruct (candidates_some (visited a) (cur a) Hcur) as (probs & Hc & Hfst).
  assert (probs ≠ []) as Hne.
  { intros ->. simpl in Hfst. symmetry in Hfst.
    by apply unvisited_nonempty in Hfst; [|lia]. }
  destruct (roulette_elem (random (used a) * denom_of probs) probs Hne)
    as (chosen & Hr & Hin).
  assert ((chosen ∉ visited a) ∧ (chosen < n)) as [Hout Hchosen].
  { rewrite Hfst in Hin. apply list_elem_of_filter in Hin as [? Hin].
    apply elem_of_seq in Hin. split; [done|lia]. }
  eexists probs, chosen, _. split; [done|]. split; [done|]. split; [done|].
  split; [done|]. split; [done|].
  split. { unfold ant_step. rewrite Hc. simpl. rewrite Hr. done. }
  simpl. split; [done|]. split; [done|].
  repeat split; simpl.
  - rewrite length_app, Hlen. simpl. lia.
  - apply NoDup_app. split; [done|]. split; [|apply NoDup_singleton].
    intros x Hx Hx'. apply list_elem_of_singleton in Hx' as ->.
    apply Hout. rewrite Hvis. by apply elem_of_list_to_set.
  - rewrite list_to_set_snoc_L, Hvis. apply (comm_L (∪)).
  - intros x Hx. apply elem_of_app in Hx as [Hx|Hx]; [by apply Hlt|].
    by apply list_elem_of_singleton in Hx as ->.
  - by rewrite head_snoc, Hhead.
  - apply last_snoc.
  - lia.
Qed.

Lemma ant_loop_unfold fuel a :
  ant_loop random hypot pow p st fuel a
  = if decide (size (visited a) < n) then
      match fuel with
      | O => None
      | S fuel' =>
          a' ← ant_step random hypot pow p st a;
          ant_loop random hypot pow p st fuel' a'
      end
    else Some a.
Proof. by destruct fuel. Qed.

Lemma ant_steps_inv s d : ∀ m k a,
  ant_inv n s d k a → S k + m ≤ n →
  ∃ a', ant_steps random hypot pow p st m a = Some a' ∧
        ant_inv n s d (k + m) a'.
Proof.
  induction m as [|m IH]; intros k a Hinv Hk.
  - exists a. split; [done|]. by rewrite Nat.add_0_r.
  - destruct (ant_step_inv s d k a Hinv) as
      (probs & chosen & a1 & _ & _ & _ & _ & _ & Hstep & _ & _ & Hinv1);
      [lia|].
    destruct (IH (S k) a1 Hinv1) as (a' & Hsteps & Hinv'); [lia|].
    exists a'. split.
    + cbn [ant_steps]. rewrite Hstep. done.
    + by replace (k + S m) with (S k + m) by lia.
Qed.

Lemma ant_loop_steps s d : ∀ m k a fuel,
  ant_inv n s d k a → S k + m = n → m ≤ fuel →
  ant_loop random hypot pow p st fuel a
  = ant_steps random hypot pow p st m a.
Proof.
  induction m as [|m IH]; intros k a fuel Hinv Hk Hfuel;
    rewrite ant_loop_unfold;
    pose proof (ant_inv_size _ _ _ _ _ Hinv) as Hsize.
  - by rewrite decide_False by lia.
  - rewrite decide_True by lia. destruct fuel as [|fuel]; [lia|].
    destruct (ant_step_inv s d k a Hinv) as
      (probs & chosen & a1 & _ & _ & _ & _ & _ & Hstep & _ & _ & Hinv1);
      [lia|].
    cbn [ant_steps]. rewrite Hstep. simpl.
    apply (IH (S k)); [done|lia..].
Qed.

End TourConstruction.

Section Population.

Variable random : nat → Q.
Variable hypot : Q → Q → Q.
Variable pow : Q → Q → Q.
Variable p : Params.
Variable st : Model.

Hypothesis random_range : ∀ i, (0 <= random i)%Q ∧ (random i < 1)%Q.

Local Abbreviation n := (length (cities st)).

Lemma start_city_lt d : 0 < n → start_city random st d < n.
Proof.
  intros Hn. destruct (random_range d). by apply Qfloor_scaled_range.
Qed.

Lemma ant_init_inv d :
  0 < n → ant_inv n (start_city random st d) d 0 (ant_init random st d).
Proof.
  intros Hn. unfold ant_init. repeat split; simpl.
  - apply NoDup_singleton.
  - by rewrite (right_id_L ∅ (∪)).
  - intros x Hx. apply list_elem_of_singleton in Hx as ->.
    by apply start_city_lt.
  - lia.
Qed.

Lemma tour_length_some (es : list (nat * nat)) : ∀ D0,
  (∀ e, e ∈ es → e.1 < n ∧ e.2 < n) →
  ∃ D, foldl (λ acc e, D ← acc; a ← cities st !! e.1; b ← cities st !! e.2;
                       Some (D + distance hypot a b)%Q) (Some D0) es = Some D.
Proof.
  induction es as [|e es IH]; intros D0 Hes; [by exists D0|].
  destruct (Hes e) as [H1 H2]; [by apply elem_of_cons; left|].
  destruct (lookup_lt_is_Some_2 (cities st) e.1 H1) as [a Ha].
  destruct (lookup_lt_is_Some_2 (cities st) e.2 H2) as [b Hb].
  cbn [foldl]. simpl. rewrite Ha, Hb. simpl. apply IH.
  intros e' He'. apply Hes. apply elem_of_cons. by right.
Qed.

Lemma edges_lt (t : list nat) e :
  (∀ x, x ∈ t → x < n) → e ∈ edges t → e.1 < n ∧ e.2 < n.
Proof.
  intros Ht He. destruct e as [x y]. unfold edges in He.
  apply elem_of_zip_l in He as Hx. apply elem_of_zip_r in He as Hy.
  split; apply Ht; [done|].
  destruct t as [|z t]; [by apply elem_of_nil in Hy|].
  apply elem_of_cons. by right.
Qed.

Lemma construct_valid d :
  0 < n →
  ∃ t D d', construct random hypot pow p st d = Some (t, D, d') ∧
            valid_tour n t ∧ tour_length hypot st t = Some D ∧ d' = d + n.
Proof.
  intros Hn. pose proof (ant_init_inv d Hn) as Hinv.
  destruct (ant_steps_inv random hypot pow p st _ d (n - 1) 0 _ Hinv)
    as (a & Hsteps & Hinv'); [lia|].
  assert (ant_loop random hypot pow p st n (ant_init random st d) = Some a)
    as Hloop.
  { rewrite <- Hsteps. eapply ant_loop_steps; [done|lia..]. }
  destruct Hinv' as (Hlen & Hnd & Hvis & Hlt & Hhead & Hlast & Hused).
  simpl in Hlen.
  assert (∀ x, x ∈ tour a ++ [start_city random st d] → x < n) as Hall.
  { intros x Hx. apply elem_of_app in Hx as [Hx|Hx]; [by apply Hlt|].
    apply list_elem_of_singleton in Hx as ->. by apply start_city_lt. }
  destruct (tour_length_some (edges (tour a ++ [start_city random st d])) 0%Q)
    as [D HD].
  { intros e He. by eapply edges_lt. }
  exists (tour a ++ [start_city random st d]), D, (used a).
  split; [|split; [|split; [done|lia]]].
  - unfold construct. rewrite Hloop. simpl.
    unfold tour_length. rewrite HD. done.
  - split; [|split].
    + rewrite length_app. simpl. lia.
    + by rewrite last_snoc, head_app, Hhead.
    + replace n with (length (tour a)) at 1 by lia.
      rewrite take_app_length.
      apply submseteq_length_Permutation.
      * apply NoDup_submseteq; [done|].
        intros x Hx. apply elem_of_seq. specialize (Hlt x Hx). lia.
      * rewrite length_seq. lia.
Qed.

Lemma build_tours_valid : ∀ k d,
  0 < n →
  ∃ tours, build_tours random hypot pow p st k d = Some (tours, d + k * n) ∧
           length tours = k ∧
           Forall (λ tD, valid_tour n tD.1 ∧
                         tour_length hypot st tD.1 = Some tD.2) tours.
Proof.
  induction k as [|k IH]; intros d Hn.
  - exists []. split; [by rewrite Nat.add_0_r|]. split; [done|constructor].
  - destruct (construct_valid d Hn) as (t & D & d' & Hc & Hv & HD & ->).
    destruct (IH (d + n) Hn) as (tours & Hb & Hlen & Hall).
    exists ((t, D) :: tours). split; [|split].
    + replace (d + S k * n) with (d + n + k * n) by lia.
      cbn [build_tours]. rewrite Hc. simpl. by rewrite Hb.
    + simpl. lia.
    + by constructor.
Qed.

End Population.

(** ** Desirability and termination *)

Section Desirability.

Variable random : nat → Q.
Variable hypot : Q → Q → Q.
Variable pow : Q → Q → Q.

Hypothesis random_range : ∀ i, (0 <= random i)%Q ∧ (random i < 1)%Q.
Hypothesis hypot_nonneg : ∀ dx dy, (0 <= hypot dx dy)%Q.
Hypothesis pow_pos : ∀ x e, (0 < x)%Q → (0 < pow x e)%Q.

Lemma candidate_pos p st c j q :
  candidate hypot pow p st c j = Some q → (0 < q.2)%Q.
Proof.
  unfold candidate. destruct (cities st !! c) as [a|]; [|done].
  destruct (cities st !! j) as [b|]; [|done]. simpl. intros [= <-]. simpl.
  apply Qmult_lt_0_compat; apply pow_pos.
  - eapply Qlt_le_trans; [|apply Q.le_max_r]. reflexivity.
  - apply Qlt_shift_div_l.
    + pose proof (hypot_nonneg (cx a - cx b) (cy a - cy b)).
      unfold distance. cbv zeta.
      eapply Qlt_le_trans; [|apply Qplus_le_l; eassumption]. reflexivity.
    + reflexivity.
Qed.

Lemma candidates_pos p st vis c probs :
  candidates hypot pow p st vis c = Some probs →
  Forall (λ q, (0 < q.2)%Q) probs.
Proof.
  unfold candidates. intros Hm. apply mapM_Some_1 in Hm.
  eapply Forall2_Forall_r; [exact Hm|].
  apply Forall_forall. intros j _ q. apply candidate_pos.
Qed.

(** C10: on two or more cities the [while] loop of an ant makes exactly
    [n-1] passes.  After [k < n-1] passes [k+1] cities are visited and the
    loop goes on; the candidate list is then non-empty, every candidate is
    an unvisited city with a strictly positive weight, the city chosen is
    one of the candidates, and the pass adds exactly that city to the
    visited set.  After [n-1] passes all [n] cities are visited and the
    loop stops. *)
Theorem construction_terminates (p : Params) (st : Model) (d : nat) :
  2 ≤ length (cities st) →
  let n := length (cities st) in
  let a0 := ant_init random st d in
  (∀ k, k < n - 1 →
     ∃ a probs chosen a',
       ant_steps random hypot pow p st k a0 = Some a ∧
       size (visited a) = S k ∧ size (visited a) < n ∧
       candidates hypot pow p st (visited a) (cur a) = Some probs ∧
       probs ≠ [] ∧
       (∀ j v, (j, v) ∈ probs → (0 < v)%Q ∧ (j ∉ visited a) ∧ j < n) ∧
       roulette (random (used a) * denom_of probs) probs = Some chosen ∧
       chosen ∈ probs.*1 ∧ (chosen ∉ visited a) ∧
       ant_step random hypot pow p st a = Some a' ∧
       visited a' = {[chosen]} ∪ visited a ∧
       size (visited a') = S (size (visited a))) ∧
  (∃ a, ant_steps random hypot pow p st (n - 1) a0 = Some a ∧
        size (visited a) = n ∧
        ant_loop random hypot pow p st n a0 = Some a).
Proof.
  intros Hn n a0.
  pose proof (ant_init_inv random st random_range d ltac:(lia)) as Hinv.
  fold n in Hinv. fold a0 in Hinv. split.
  - intros k Hk.
    destruct (ant_steps_inv random hypot pow p st _ d k 0 a0 Hinv)
      as (a & Hsteps & Hinva); [fold n; lia|]. simpl in Hinva.
    destruct (ant_step_inv random hypot pow p st _ d k a Hinva)
      as (probs & chosen & a' & Hc & Hne & Hfst & Hr & Hin & Hstep & Hvis
          & _ & Hinv'); [fold n; lia|].
    pose proof (ant_inv_size _ _ _ _ _ Hinva) as Hsize.
    pose proof (ant_inv_size _ _ _ _ _ Hinv') as Hsize'.
    assert (∀ j, j ∈ probs.*1 → (j ∉ visited a) ∧ (j < n)) as Hunv.
    { intros j Hj. rewrite Hfst in Hj.
      apply list_elem_of_filter in Hj as [? Hj]. apply elem_of_seq in Hj.
      split; [done|fold n; lia]. }
    exists a, probs, chosen, a'. repeat split; try done; try lia.
    + pose proof (candidates_pos _ _ _ _ _ Hc) as Hpos.
      rewrite Forall_forall in Hpos. by apply (Hpos (j, v)).
    + apply (Hunv j). apply list_elem_of_fmap. by exists (j, v).
    + apply (Hunv j). apply list_elem_of_fmap. by exists (j, v).
    + by apply Hunv.
  - destruct (ant_steps_inv random hypot pow p st _ d (n - 1) 0 a0 Hinv)
      as (a & Hsteps & Hinva); [fold n; lia|].
    exists a. split; [done|]. split.
    + rewrite (ant_inv_size _ _ _ _ _ Hinva). simpl. lia.
    + rewrite <- Hsteps. eapply ant_loop_steps; [exact Hinv|fold n; lia..].
Qed.

End Desirability.

(** ** One iteration *)

Section IterationFacts.

Variable random : nat → Q.
Variable hypot : Q → Q → Q.
Variable pow : Q → Q → Q.

Hypothesis random_range : ∀ i, (0 <= random i)%Q ∧ (random i < 1)%Q.

(** C1: on two or more cities every tour the population loop builds has
    [n+1] entries, ends at the city it starts from, and its first [n]
    entries are the city indices [0..n-1], each exactly once. *)
Theorem tours_are_hamiltonian_cycles (p : Params) (st : Model) (k d : nat) :
  2 ≤ length (cities st) →
  let n := length (cities st) in
  ∃ tours d',
    build_tours random hypot pow p st k d = Some (tours, d') ∧
    length tours = k ∧
    ∀ t D, (t, D) ∈ tours →
      length t = n + 1 ∧
      (∃ s, s < n ∧ head t = Some s ∧ last t = Some s) ∧
      NoDup (take n t) ∧
      take n t ≡ₚ seq 0 n.
Proof.
  intros Hn n.
  destruct (build_tours_valid random hypot pow p st random_range k d)
    as (tours & Hb & Hlen & Hall); [lia|].
  exists tours, (d + k * n). split; [done|]. split; [done|].
  intros t D Hin. rewrite Forall_forall in Hall.
  destruct (Hall _ Hin) as [(Ht & Hhl & Hperm) _]. simpl in *.
  fold n in Ht, Hperm.
  split; [done|]. split; [|split; [|done]].
  - destruct t as [|s t]; [simpl in Ht; lia|]. exists s.
    split; [|split; [done|by rewrite <- Hhl]].
    assert (s ∈ take n (s :: t)) as Hs.
    { apply (list_elem_of_lookup_2 _ 0). rewrite lookup_take_lt; [done|].
      unfold n. lia. }
    rewrite Hperm in Hs. apply elem_of_seq in Hs. lia.
  - rewrite Hperm. apply NoDup_seq.
Qed.

Lemma runIteration_some (p : Params) (st : Model) :
  2 ≤ length (cities st) →
  ∃ tours d,
    build_tours random hypot pow p st (Z.to_nat (ants p)) (draws st)
      = Some (tours, d) ∧
    Forall (λ tD, valid_tour (length (cities st)) tD.1 ∧
                  tour_length hypot st tD.1 = Some tD.2) tours ∧
    runIteration random hypot pow p st
    = Some {| cities := cities st;
              pher := (foldl deposit_step
                         (evaporate (rho p) (pher st),
                          (bestDist st, bestTour st)) tours).1;
              running := running st; iter := S (iter st);
              bestDist := (foldl update_best
                             (bestDist st, bestTour st) tours).1;
              bestTour := (foldl update_best
                             (bestDist st, bestTour st) tours).2;
              draws := d |}.
Proof.
  intros Hn.
  destruct (build_tours_valid random hypot pow p st random_range
              (Z.to_nat (ants p)) (draws st))
    as (tours & Hb & _ & Hall); [lia|].
  eexists tours, _. split; [done|]. split; [done|].
  unfold runIteration. rewrite decide_False by lia. rewrite Hb. simpl.
  rewrite <- deposit_step_best with (ph := evaporate (rho p) (pher st)).
  by destruct (foldl deposit_step _ tours) as [ph' [bd bt]].
Qed.




End IterationFacts.

(** ** The store across an iteration *)

Lemma deposit_step_ops tours : ∀ ph b,
  (foldl deposit_step (ph, b) tours).1
  = foldl apply_op ph ((λ tD, Deposit (1 / (tD.2 + 1e-6))%Q tD.1) <$> tours).
Proof.
  induction tours as [|tD tours IH]; intros ph b; [done|].
  simpl. unfold deposit_step at 2. cbn [fst snd]. apply IH.
Qed.

Section StoreFacts.

Variable random : nat → Q.
Variable hypot : Q → Q → Q.
Variable pow : Q → Q → Q.

Hypothesis random_range : ∀ i, (0 <= random i)%Q ∧ (random i < 1)%Q.
Hypothesis hypot_nonneg : ∀ dx dy, (0 <= hypot dx dy)%Q.

Lemma tour_length_nonneg st (es : list (nat * nat)) : ∀ acc D,
  (∀ D0, acc = Some D0 → (0 <= D0)%Q) →
  foldl (λ acc e, D ← acc; a ← cities st !! e.1; b ← cities st !! e.2;
                  Some (D + distance hypot a b)%Q) acc es = Some D →
  (0 <= D)%Q.
Proof.
  induction es as [|e es IH]; intros acc D Hacc; [apply Hacc|].
  cbn [foldl]. apply IH. intros D1.
  destruct acc as [D0|]; [|done]. simpl.
  destruct (cities st !! e.1) as [a|]; [|done]. simpl.
  destruct (cities st !! e.2) as [b|]; [|done]. simpl. intros [= <-].
  pose proof (Hacc D0 eq_refl).
  pose proof (hypot_nonneg (cx a - cx b) (cy a - cy b)).
  unfold distance. cbv zeta. lra.
Qed.

Lemma deposit_amount_valid (D : Q) :
  (0 <= D)%Q → (0 <= 1 / (D + 1e-6))%Q.
Proof.
  intros HD. apply Qle_shift_div_l; [|lra].
  eapply Qlt_le_trans; [|apply Qplus_le_l; exact HD]. reflexivity.
Qed.

(** The store a call leaves is the one the call found, evaporated once
    and then fed one deposit per tour; with a rate of at most 1 all of its
    levels stay non-negative. *)
Lemma runIteration_store (p : Params) (st : Model) :
  2 ≤ length (cities st) →
  ∃ st' tours,
    runIteration random hypot pow p st = Some st' ∧
    pher st' = foldl apply_op (pher st)
                 (Evaporate (rho p)
                  :: ((λ tD, Deposit (1 / (tD.2 + 1e-6))%Q tD.1) <$> tours)) ∧
    Forall valid_op ((λ tD, Deposit (1 / (tD.2 + 1e-6))%Q tD.1) <$> tours) ∧
    ((rho p <= 1)%Q → nonneg (pher st) → nonneg (pher st')).
Proof.
  intros Hn.
  destruct (runIteration_some random hypot pow random_range p st Hn)
    as (tours & d & _ & Hall & Hrun).
  eexists _, tours. split; [exact Hrun|]. cbn [pher].
  assert (Forall valid_op
            ((λ tD, Deposit (1 / (tD.2 + 1e-6))%Q tD.1) <$> tours)) as Hvalid.
  { apply Forall_fmap. eapply Forall_impl; [exact Hall|].
    intros [t D] [_ HD]. simpl in *. apply deposit_amount_valid.
    eapply tour_length_nonneg; [|exact HD]. intros D0 [= <-]. lra. }
  split; [by rewrite deposit_step_ops|]. split; [done|].
  intros Hrho Hph. rewrite deposit_step_ops.
  by apply apply_ops_nonneg, evaporate_nonneg.
Qed.

End StoreFacts.

(** ** Changes of the city set *)

Section CitySet.

Variable hypot : Q → Q → Q.

Lemma near_index_lt x y cs : ∀ i j, near_index hypot x y cs i = Some j → j < i.
Proof.
  induction i as [|i IH]; intros j; [done|]. cbn [near_index].
  destruct (cs !! i) as [c|]; [|done].
  destruct (Qltb (hypot (cx c - x) (cy c - y)) 10).
  - intros [= <-]. lia.
  - intros Hj. apply IH in Hj. lia.
Qed.

(** C4, what the code does: a click always changes the number of cities
    and re-initialises the store for the new count, with every level 1,
    but the best length and the best tour stay as they were. *)
Theorem click_keeps_best_record (x y : Q) (st : Model) :
  let st' := click hypot x y st in
  length (cities st') ≠ length (cities st) ∧
  pher st' = initPheromones (length (cities st')) ∧
  (∀ k v, pher st' !! k = Some v → v = 1%Q) ∧
  bestDist st' = bestDist st ∧
  bestTour st' = bestTour st.
Proof.
  unfold click. cbn zeta. cbn [cities pher bestDist bestTour].
  split; [|split; [done|split; [|done]]].
  - destruct (near_index hypot x y (cities st) (length (cities st)))
      as [i|] eqn:Hi.
    + apply near_index_lt in Hi.
      rewrite length_delete by by apply lookup_lt_is_Some_2. lia.
    + rewrite length_app. simpl. lia.
  - intros k v. rewrite initPheromones_lookup. case_decide; congruence.
Qed.

End CitySet.

(** ** The concrete platform functions meet the assumptions *)

Lemma coin_range : ∀ i, (0 <= coin i)%Q ∧ (coin i < 1)%Q.
Proof. intros i. unfold coin. destruct (Nat.even i); split; lra. Qed.

Lemma hypot6_nonneg : ∀ dx dy, (0 <= hypot6 dx dy)%Q.
Proof.
  intros dx dy. unfold hypot6. apply Qle_shift_div_l; [reflexivity|].
  rewrite Qmult_0_l. replace 0%Q with (inject_Z 0) by done.
  rewrite <- Zle_Qle. apply Z.sqrt_nonneg.
Qed.

Lemma pow_int_pos : ∀ x e, (0 < x)%Q → (0 < pow_int x e)%Q.
Proof. intros x e Hx. unfold pow_int. by apply Qpower_0_lt. Qed.

Lemma tours_are_hamiltonian_cycles_witness :
  let n := length (cities square_model) in
  ∃ tours d',
    build_tours coin hypot6 pow_int square_params square_model 3 0
      = Some (tours, d') ∧
    length tours = 3 ∧
    ∀ t D, (t, D) ∈ tours →
      length t = n + 1 ∧
      (∃ s, s < n ∧ head t = Some s ∧ last t = Some s) ∧
      NoDup (take n t) ∧
      take n t ≡ₚ seq 0 n.
Proof.
  apply (tours_are_hamiltonian_cycles coin hypot6 pow_int coin_range
           square_params square_model 3 0).
  simpl. lia.
Defined.

Lemma construction_terminates_witness :
  let n := length (cities square_model) in
  let a0 := ant_init coin square_model 0 in
  (∀ k, k < n - 1 →
     ∃ a probs chosen a',
       ant_steps coin hypot6 pow_int square_params square_model k a0
         = Some a ∧
       size (visited a) = S k ∧ size (visited a) < n ∧
       candidates hypot6 pow_int square_params square_model
         (visited a) (cur a) = Some probs ∧
       probs ≠ [] ∧
       (∀ j v, (j, v) ∈ probs → (0 < v)%Q ∧ (j ∉ visited a) ∧ j < n) ∧
       roulette (coin (used a) * denom_of probs) probs = Some chosen ∧
       chosen ∈ probs.*1 ∧ (chosen ∉ visited a) ∧
       ant_step coin hypot6 pow_int square_params square_model a = Some a' ∧
       visited a' = {[chosen]} ∪ visited a ∧
       size (visited a') = S (size (visited a))) ∧
  (∃ a, ant_steps coin hypot6 pow_int square_params square_model (n - 1) a0
          = Some a ∧
        size (visited a) = n ∧
        ant_loop coin hypot6 pow_int square_params square_model n a0
          = Some a).
Proof.
  apply (construction_terminates coin hypot6 pow_int coin_range
           hypot6_nonneg pow_int_pos square_params square_model 0).
  simpl. lia.
Defined.


(** Three ants on the square all walk [1, 2, 0, 3, 1]; the first one sets
    the record and the other two, of equal length, do not replace it. *)
Lemma square_iteration_runs :
  (λ r : list (list nat * Q) * nat,
     ((λ tD : list nat * Q, (tD.1, Qred tD.2)) <$> r.1, r.2))
  <$> build_tours coin hypot6 pow_int square_params square_model 3 0
  = Some ([([1; 2; 0; 3; 1], (4828427 # 100000)%Q);
           ([1; 2; 0; 3; 1], (4828427 # 100000)%Q);
           ([1; 2; 0; 3; 1], (4828427 # 100000)%Q)], 12) ∧
  (bestTour <$> runIteration coin hypot6 pow_int square_params square_model)
  = Some (Some [1; 2; 0; 3; 1]).
Proof. split; vm_compute; reflexivity. Qed.

(** C4 at a concrete input: after one iteration on three cities the best
    tour is [0, 2, 1, 0]; a click on the first city removes it, the store
    is rebuilt for the two cities left, and the record still holds the
    old length and a tour through index 2, which no city has any more, so
    that drawing the best tour throws. *)
Lemma click_leaves_stale_record :
  ∃ st1, runIteration coin hypot6 pow_int triangle_params triangle_model
         = Some st1 ∧
    bestTour st1 = Some [0; 2; 1; 0] ∧
    is_Some (redraw_best st1) ∧
    let st2 := click hypot6 0 0 st1 in
    cities st2 = [mkCity 0 10; mkCity 10 10] ∧
    pher st2 = initPheromones 2 ∧
    bestTour st2 = Some [0; 2; 1; 0] ∧
    bestDist st2 = bestDist st1 ∧
    bestDist st2 ≠ Infinity ∧
    cities st2 !! 2 = None ∧
    redraw_best st2 = None.
Proof.
  eexists. split; [vm_compute; reflexivity|].
  split; [vm_compute; reflexivity|]. split; [vm_compute; eauto|].
  repeat split; try (vm_compute; reflexivity). discriminate.
Qed.

(** [randomizeCities] rebuilds the store for the new cities and keeps the
    best-tour record as well; [resetModel] is the only function that
    clears the record. *)
Lemma randomizeCities_keeps_best_record random W H k st :
  let st' := randomizeCities random W H k st in
  length (cities st') = k ∧
  pher st' = initPheromones k ∧
  bestDist st' = bestDist st ∧ bestTour st' = bestTour st.
Proof.
  unfold randomizeCities. cbn zeta. cbn [cities pher bestDist bestTour].
  by rewrite length_fmap, length_seq.
Qed.

Lemma resetModel_clears_best_record st :
  bestDist (resetModel st) = Infinity ∧ bestTour (resetModel st) = None ∧
  pher (resetModel st) = ∅ ∧ iter (resetModel st) = 0.
Proof. done. Qed.

(** * Further properties of the script *)

(** The literal [1e-6] is a quotient by a power of ten; [lra] wants it as
    a fraction. *)
Ltac unfold_eps := change (1e-6)%Q with (1 # 1000000)%Q in *.

(** ** Keys *)

Lemma edgeKey_min_max a b :
  edgeKey a b = pretty (a `min` b) +:+ "-" +:+ pretty (a `max` b).
Proof.
  unfold edgeKey. destruct (Nat.ltb_spec a b).
  - by rewrite Nat.min_l, Nat.max_r by lia.
  - by rewrite Nat.min_r, Nat.max_l by lia.
Qed.

Lemma edgeKey_eq_iff (a b a' b' : nat) :
  edgeKey a b = edgeKey a' b' ↔ (a = a' ∧ b = b') ∨ (a = b' ∧ b = a').
Proof.
  split.
  - rewrite !edgeKey_min_max. intros Heq.
    apply dash_split in Heq as [Hmin Hmax]; auto using pretty_nat_no_dash.
    apply (inj pretty) in Hmin. apply (inj pretty) in Hmax. lia.
  - intros [[-> ->] | [-> ->]]; [done|apply edgeKey_sym].
Qed.

(** X1: two edges share a key exactly when they join the same two cities,
    in either direction; keys of different pairs never collide. *)
Theorem edgeKey_same_pair (a b a' b' : nat) :
  edgeKey a b = edgeKey a' b' ↔ (a = a' ∧ b = b') ∨ (a = b' ∧ b = a').
Proof. apply edgeKey_eq_iff. Qed.

Lemma init_keys_elem n k :
  k ∈ init_keys n ↔ ∃ a b, a < b < n ∧ k = edgeKey a b.
Proof.
  unfold init_keys. rewrite list_elem_of_fmap. split.
  - intros ([a b] & -> & Hin). apply elem_of_pairs_from in Hin as [_ ?].
    by exists a, b.
  - intros (a & b & Hab & ->). exists (a, b). split; [done|].
    apply elem_of_pairs_from. rewrite elem_of_seq. lia.
Qed.

Lemma initPheromones_dom n : dom (initPheromones n) = list_to_set (init_keys n).
Proof.
  apply set_eq. intros k. rewrite elem_of_dom, elem_of_list_to_set.
  rewrite initPheromones_lookup.
  case_decide; split; first [done | by intros [? ?] | by eexists].
Qed.

(** X2: the store [initPheromones] builds has a level exactly under the
    keys of the pairs [a < b < n]: no city has an edge to itself, and for
    fewer than two cities the store is empty. *)
Theorem initPheromones_keys (n : nat) :
  (∀ k, is_Some (initPheromones n !! k) ↔ ∃ a b, a < b < n ∧ k = edgeKey a b) ∧
  (∀ a, initPheromones n !! edgeKey a a = None) ∧
  (n ≤ 1 → initPheromones n = ∅).
Proof.
  split; [|split].
  - intros k. rewrite initPheromones_lookup, <- init_keys_elem.
    case_decide; split; first [done | by intros [? ?] | by eexists].
  - intros a. rewrite initPheromones_lookup. case_decide as Hin; [|done].
    apply init_keys_elem in Hin as (a' & b' & Hlt & Heq).
    apply edgeKey_eq_iff in Heq. lia.
  - intros Hn. apply map_eq. intros k. rewrite lookup_empty.
    rewrite initPheromones_lookup. case_decide as Hin; [|done].
    apply init_keys_elem in Hin as (a' & b' & Hlt & _). lia.
Qed.

Lemma initPheromones_keys_witness : initPheromones 1 = ∅.
Proof.
  destruct (initPheromones_keys 1) as (_ & _ & Hempty). apply Hempty. lia.
Defined.

(** ** The level read by a candidate *)

Lemma js_or_some_eq (v d : Q) : ¬ (v == 0)%Q → js_or (Some v) d = v.
Proof.
  intros Hv. unfold js_or. destruct (Qeq_bool v 0) eqn:Heq; [|done].
  by apply Qeq_bool_iff in Heq.
Qed.

Lemma js_or_some_zero (v d : Q) : (v == 0)%Q → js_or (Some v) d = d.
Proof.
  intros Hv. unfold js_or. apply Qeq_bool_iff in Hv. by rewrite Hv.
Qed.

(** X3: the level a candidate is weighted with is never below [1e-6].  A
    missing key and a stored level of exactly 0 both read as [1e-4]; any
    other stored level is used as it is when it is at least [1e-6] and is
    raised to [1e-6] when it is smaller, negative levels included. *)
Theorem tau_floor (ph : gmap string Q) (key : string) :
  (1e-6 <= tau_of ph key)%Q ∧
  (ph !! key = None → tau_of ph key = 0.0001%Q) ∧
  (∀ v, ph !! key = Some v → (v == 0)%Q → tau_of ph key = 0.0001%Q) ∧
  (∀ v, ph !! key = Some v → (1e-6 <= v)%Q → tau_of ph key = v) ∧
  (∀ v, ph !! key = Some v → ¬ (v == 0)%Q → (v < 1e-6)%Q →
        tau_of ph key = 1e-6%Q).
Proof.
  unfold tau_of. split; [apply Q.le_max_r|]. split; [|split; [|split]].
  - by intros ->.
  - intros v -> Hv. by rewrite js_or_some_zero.
  - intros v -> Hv. unfold_eps. rewrite js_or_some_eq by (intros H0; lra).
    unfold Qmax, GenericMinMax.gmax.
    destruct (v ?= 1 # 1000000)%Q eqn:Hc; try done.
    apply Qlt_alt in Hc. lra.
  - intros v -> Hv0 Hv. unfold_eps. rewrite js_or_some_eq by done.
    unfold Qmax, GenericMinMax.gmax.
    destruct (v ?= 1 # 1000000)%Q eqn:Hc; try done.
    + apply Qeq_alt in Hc. lra.
    + apply Qgt_alt in Hc. lra.
Qed.

Lemma tau_floor_witness :
  tau_of (<["0-1" := (1 # 10000000)%Q]> ∅) "0-1" = 1e-6%Q ∧
  tau_of (<["0-1" := 0%Q]> ∅) "0-1" = 0.0001%Q.
Proof.
  destruct (tau_floor (<["0-1" := (1 # 10000000)%Q]> ∅) "0-1")
    as (_ & _ & _ & _ & Hsmall).
  destruct (tau_floor (<["0-1" := 0%Q]> ∅) "0-1") as (_ & _ & Hzero & _).
  split.
  - apply (Hsmall (1 # 10000000)%Q); [reflexivity|discriminate|reflexivity].
  - apply (Hzero 0%Q); reflexivity.
Defined.

Lemma inv_eps_bounds (d : Q) :
  (0 <= d)%Q → (0 < 1 / (d + 1e-6))%Q ∧ (1 / (d + 1e-6) <= 1000000)%Q.
Proof.
  intros Hd. unfold_eps. split.
  - apply Qlt_shift_div_l; lra.
  - apply Qle_shift_div_r; lra.
Qed.

Section Guards.

Variable hypot : Q → Q → Q.
Variable pow : Q → Q → Q.

Hypothesis hypot_nonneg : ∀ dx dy, (0 <= hypot dx dy)%Q.

(** X4: the [1e-6] added to a distance keeps both quotients of the
    engine in range.  The weight of a candidate is
    [pow tau alpha * pow eta beta] with [0 < eta <= 10^6], also for
    coincident cities; a tour length is never negative, and the amount
    [1 / (D + 1e-6)] deposited for it lies in the same interval. *)
Theorem epsilon_guards (p : Params) (st : Model) :
  (∀ c j a b, cities st !! c = Some a → cities st !! j = Some b →
     ∃ eta, candidate hypot pow p st c j
            = Some (j, (pow (tau_of (pher st) (edgeKey c j)) (alpha p)
                        * pow eta (beta p))%Q) ∧
            eta = (1 / (distance hypot a b + 1e-6))%Q ∧
            (0 < eta)%Q ∧ (eta <= 1000000)%Q) ∧
  (∀ t D, tour_length hypot st t = Some D →
     (0 <= D)%Q ∧ (0 < 1 / (D + 1e-6))%Q ∧ (1 / (D + 1e-6) <= 1000000)%Q).
Proof.
  split.
  - intros c j a b Ha Hb. eexists. split; [|split; [done|]].
    + unfold candidate. rewrite Ha, Hb. done.
    + apply inv_eps_bounds. apply hypot_nonneg.
  - intros t D HD.
    assert (0 <= D)%Q as H0.
    { eapply (tour_length_nonneg hypot hypot_nonneg); [|exact HD].
      intros D0 [= <-]. lra. }
    split; [done|]. by apply inv_eps_bounds.
Qed.

End Guards.

Lemma epsilon_guards_witness :
  ∃ eta, candidate hypot6 pow_int square_params square_model 0 0
         = Some (0, (pow_int (tau_of (pher square_model) (edgeKey 0 0))
                             (alpha square_params)
                     * pow_int eta (beta square_params))%Q) ∧
         eta = (1 / (distance hypot6 (mkCity 0 0) (mkCity 0 0) + 1e-6))%Q ∧
         (0 < eta)%Q ∧ (eta <= 1000000)%Q.
Proof.
  destruct (epsilon_guards hypot6 pow_int hypot6_nonneg
              square_params square_model) as [Hc _].
  apply (Hc 0 0 (mkCity 0 0) (mkCity 0 0)); reflexivity.
Defined.

(** ** Evaporation and deposit, level by level *)

(** X6: with a rate in (0,1] evaporation strictly lowers every positive
    level and never makes it negative. *)
Theorem evaporate_decreases (rho : Q) (ph : gmap string Q) (k : string) (v : Q) :
  (0 < rho)%Q → (rho <= 1)%Q → ph !! k = Some v → (0 < v)%Q →
  ∃ v', evaporate rho ph !! k = Some v' ∧ (0 <= v')%Q ∧ (v' < v)%Q.
Proof.
  intros H0 H1 Hk Hv. exists (v * (1 - rho))%Q.
  rewrite evaporate_lookup, Hk. split; [done|]. split; nra.
Qed.

Lemma evaporate_decreases_witness :
  ∃ v', evaporate (1 # 2) (initPheromones 3) !! "0-2" = Some v' ∧
        (0 <= v')%Q ∧ (v' < 1)%Q.
Proof.
  apply (evaporate_decreases (1 # 2) (initPheromones 3) "0-2" 1).
  - reflexivity.
  - discriminate.
  - vm_compute. reflexivity.
  - reflexivity.
Defined.

Lemma js_or_zero_eq (v : Q) : (js_or (Some v) 0 == v)%Q.
Proof.
  unfold js_or. destruct (Qeq_bool v 0) eqn:Heq; [|reflexivity].
  apply Qeq_bool_iff in Heq. by rewrite Heq.
Qed.

Lemma level_evaporate rho ph k :
  (level (evaporate rho ph) k == level ph k * (1 - rho))%Q.
Proof.
  unfold level. rewrite evaporate_lookup.
  destruct (ph !! k) as [v|]; cbn [fmap option_fmap option_map].
  - by rewrite !js_or_zero_eq.
  - unfold js_or. ring.
Qed.

Lemma level_deposit_edge delta ph e k :
  (level (deposit_edge delta ph e) k
   == level ph k + (if decide (edgeKey e.1 e.2 = k) then delta else 0))%Q.
Proof.
  unfold level, deposit_edge. cbv zeta. case_decide as Hk.
  - subst k. rewrite lookup_insert_eq. by rewrite js_or_zero_eq.
  - rewrite lookup_insert_ne by done. ring.
Qed.

Lemma level_deposit_edges delta k (es : list (nat * nat)) : ∀ ph,
  (level (foldl (deposit_edge delta) ph es) k
   == level ph k
      + inject_Z (Z.of_nat (length (filter (λ e, edgeKey e.1 e.2 = k) es)))
        * delta)%Q.
Proof.
  induction es as [|e es IH]; intros ph.
  - simpl. ring.
  - cbn [foldl]. rewrite IH, level_deposit_edge, filter_cons.
    case_decide.
    + cbn [length]. rewrite Nat2Z.inj_succ, <- Z.add_1_r, inject_Z_plus.
      simpl inject_Z. ring.
    + ring.
Qed.

Lemma deposit_edges_dom delta (es : list (nat * nat)) : ∀ ph : gmap string Q,
  dom (foldl (deposit_edge delta) ph es)
  = dom ph ∪ list_to_set ((λ e, edgeKey e.1 e.2) <$> es).
Proof.
  induction es as [|e es IH]; intros ph.
  - simpl. by rewrite (right_id_L ∅ (∪)).
  - cbn [foldl]. rewrite IH. unfold deposit_edge. cbv zeta.
    rewrite dom_insert_L, fmap_cons, list_to_set_cons.
    apply set_eq. intros x. rewrite !elem_of_union. tauto.
Qed.

Lemma deposit_edges_other delta k (es : list (nat * nat)) : ∀ ph : gmap string Q,
  filter (λ e, edgeKey e.1 e.2 = k) es = [] →
  foldl (deposit_edge delta) ph es !! k = ph !! k.
Proof.
  induction es as [|e es IH]; intros ph Hf; [done|].
  rewrite filter_cons in Hf. case_decide as Hk; [done|].
  cbn [foldl]. rewrite IH by done. unfold deposit_edge. cbv zeta.
  by rewrite lookup_insert_ne.
Qed.

(** X7: [deposit] adds the amount to an edge once for every step of the
    tour over it, a missing level counting as 0, so that an edge the tour
    runs over twice receives twice the amount; keys the tour does not use
    keep their entry, and the keys of the tour are in the store
    afterwards. *)
Theorem deposit_levels (delta : Q) (t : list nat) (ph : gmap string Q)
    (k : string) :
  (level (deposit delta t ph) k
   == level ph k + inject_Z (Z.of_nat (edge_count k t)) * delta)%Q ∧
  (edge_count k t = 0 → deposit delta t ph !! k = ph !! k) ∧
  dom (deposit delta t ph)
  = dom ph ∪ list_to_set ((λ e, edgeKey e.1 e.2) <$> edges t).
Proof.
  unfold deposit, edge_count. split; [apply level_deposit_edges|]. split.
  - intros Hc. apply deposit_edges_other. by apply nil_length_inv.
  - apply deposit_edges_dom.
Qed.

Lemma deposit_levels_witness :
  deposit (1 # 4) [0; 1; 0] ∅ !! "2-3" = (∅ : gmap string Q) !! "2-3".
Proof.
  destruct (deposit_levels (1 # 4) [0; 1; 0] ∅ "2-3") as (_ & Hother & _).
  apply Hother. reflexivity.
Defined.

(** ** The steps of a closed tour *)

Lemma valid_tour_steps (n : nat) (t : list nat) (e : nat * nat) :
  2 ≤ n → valid_tour n t → e ∈ edges t → e.1 < n ∧ e.2 < n ∧ e.1 ≠ e.2.
Proof.
  intros Hn (Hlen & Hhl & Hperm) He.
  assert (NoDup (take n t)) as Hnd by (rewrite Hperm; apply NoDup_seq).
  assert (∀ i x, i < n → t !! i = Some x → take n t !! i = Some x) as Htake.
  { intros i x Hi Hx. by rewrite lookup_take_lt. }
  assert (∀ i x, take n t !! i = Some x → x < n) as Hlt.
  { intros i x Hx. apply list_elem_of_lookup_2 in Hx.
    rewrite Hperm in Hx. apply elem_of_seq in Hx. lia. }
  unfold edges in He.
  apply elem_of_lookup_zip_with_1 in He as (i & x & y & -> & Hx & Hy).
  rewrite lookup_tail in Hy. simpl.
  pose proof (lookup_lt_Some _ _ _ Hy) as Hi.
  destruct (decide (S i < n)) as [Hin|Hin].
  - apply Htake in Hx; [|lia]. apply Htake in Hy; [|lia].
    split; [by eapply Hlt|]. split; [by eapply Hlt|].
    intros ->. pose proof (NoDup_lookup _ _ _ _ Hnd Hx Hy). lia.
  - assert (S i = n) as Hi' by lia.
    assert (t !! 0 = Some y) as H0.
    { rewrite <- head_lookup, Hhl, last_lookup, Hlen.
      by replace (pred (n + 1)) with (S i) by lia. }
    apply Htake in Hx; [|lia]. apply Htake in H0; [|lia].
    split; [by eapply Hlt|]. split; [by eapply Hlt|].
    intros ->. pose proof (NoDup_lookup _ _ _ _ Hnd Hx H0). lia.
Qed.

Lemma valid_tour_keys (n : nat) (t : list nat) :
  2 ≤ n → valid_tour n t →
  ∀ k, k ∈ (λ e, edgeKey e.1 e.2) <$> edges t → k ∈ init_keys n.
Proof.
  intros Hn Hv k Hk. apply list_elem_of_fmap in Hk as ([a b] & -> & He).
  destruct (valid_tour_steps n t (a, b) Hn Hv He) as (Ha & Hb & Hab).
  simpl in *. apply init_keys_elem.
  destruct (decide (a < b)).
  - exists a, b. split; [lia|done].
  - exists b, a. split; [lia|apply edgeKey_sym].
Qed.

Lemma valid_tour_in_range (n : nat) (t : list nat) (e : nat * nat) :
  valid_tour n t → e ∈ edges t → e.1 < n ∧ e.2 < n.
Proof.
  intros Hv He. destruct (decide (2 ≤ n)) as [Hn|Hn].
  { destruct (valid_tour_steps n t e Hn Hv He) as (? & ? & _). done. }
  destruct Hv as (Hlen & Hhl & Hperm).
  destruct (decide (n = 0)) as [->|Hn0].
  { destruct t as [|x [|??]]; try done. by apply elem_of_nil in He. }
  assert (∀ x, x ∈ t → x < n) as Hall.
  { intros x Hx. apply list_elem_of_lookup_1 in Hx as [i Hi].
    pose proof (lookup_lt_Some _ _ _ Hi) as Hil.
    assert (take n t !! 0 = Some x) as H0.
    { destruct (decide (i < n)) as [Hin|Hin].
      - replace 0 with i by lia. by rewrite lookup_take_lt.
      - rewrite lookup_take_lt by lia.
        rewrite <- head_lookup, Hhl, last_lookup, Hlen.
        by replace (pred (n + 1)) with i by lia. }
    apply list_elem_of_lookup_2 in H0. rewrite Hperm in H0.
    apply elem_of_seq in H0. lia. }
  unfold edges in He.
  apply elem_of_lookup_zip_with_1 in He as (i & x & y & -> & Hx & Hy).
  rewrite lookup_tail in Hy. simpl.
  split; apply Hall; by eapply list_elem_of_lookup_2.
Qed.

Lemma drawTour_valid (cs : list City) (t : list nat) :
  valid_tour (length cs) t → is_Some (drawTour cs t).
Proof.
  intros Hv. unfold drawTour. apply mapM_is_Some_2, Forall_forall.
  intros e He. destruct (valid_tour_in_range _ _ e Hv He) as [H1 H2].
  destruct (lookup_lt_is_Some_2 cs e.1 H1) as [a Ha].
  destruct (lookup_lt_is_Some_2 cs e.2 H2) as [b Hb].
  simpl. rewrite Ha, Hb. by eexists.
Qed.

Lemma record_consistent_update hypot cs b tD :
  record_consistent hypot cs b →
  record_consistent hypot cs (Num tD.2, Some tD.1) →
  record_consistent hypot cs (update_best b tD).
Proof. intros Hb Hn. unfold update_best. by destruct (lt_num tD.2 b.1). Qed.

Lemma record_consistent_fold hypot cs tours : ∀ b,
  record_consistent hypot cs b →
  Forall (λ tD, record_consistent hypot cs (Num tD.2, Some tD.1)) tours →
  record_consistent hypot cs (foldl update_best b tours).
Proof.
  induction tours as [|tD tours IH]; intros b Hb Hall; [done|].
  apply Forall_cons in Hall as [Hd Hall]. cbn [foldl].
  apply IH; [|done]. by apply record_consistent_update.
Qed.

Lemma best_fold_num tours : ∀ b,
  b.1 ≠ Infinity → (foldl update_best b tours).1 ≠ Infinity.
Proof.
  induction tours as [|tD tours IH]; intros b Hb; [done|].
  simpl. apply IH. unfold update_best. by destruct (lt_num tD.2 b.1).
Qed.

Lemma best_fold_found tours b :
  tours ≠ [] → (foldl update_best b tours).1 ≠ Infinity.
Proof.
  destruct tours as [|tD tours]; [done|]. intros _. simpl.
  apply best_fold_num. unfold update_best.
  destruct b as [[|q] bt]; simpl; [done|]. by destruct (Qltb tD.2 q).
Qed.

Lemma deposit_fold_dom (S : gset string) tours : ∀ ph b,
  dom ph = S →
  Forall (λ tD : list nat * Q,
            ∀ k, k ∈ (λ e, edgeKey e.1 e.2) <$> edges tD.1 → k ∈ S) tours →
  dom (foldl deposit_step (ph, b) tours).1 = S.
Proof.
  induction tours as [|tD tours IH]; intros ph b Hph Hall; [done|].
  apply Forall_cons in Hall as [Ht Hall]. simpl.
  unfold deposit_step at 2. cbn [fst snd]. apply IH; [|done].
  unfold deposit. rewrite deposit_edges_dom, Hph.
  apply set_eq. intros k. rewrite elem_of_union, elem_of_list_to_set.
  split; [intros [?|?]; auto|auto].
Qed.

Lemma deposit_fold_level k tours : ∀ ph b,
  (level (foldl deposit_step (ph, b) tours).1 k
   == level ph k + deposit_total k tours)%Q.
Proof.
  induction tours as [|tD tours IH]; intros ph b.
  - simpl. ring.
  - cbn [foldl]. unfold deposit_step at 2. cbn [fst snd]. rewrite IH.
    unfold deposit at 1. rewrite level_deposit_edges.
    unfold deposit_total, edge_count. cbn [foldr].
    symmetry. apply Qplus_assoc.
Qed.

(** ** Invariants of an iteration *)

Section IterationInvariants.

Variable random : nat → Q.
Variable hypot : Q → Q → Q.
Variable pow : Q → Q → Q.

Hypothesis random_range : ∀ i, (0 <= random i)%Q ∧ (random i < 1)%Q.

Lemma runIteration_tours (p : Params) (st : Model) :
  2 ≤ length (cities st) →
  ∃ tours,
    build_tours random hypot pow p st (Z.to_nat (ants p)) (draws st)
      = Some (tours, draws st + Z.to_nat (ants p) * length (cities st)) ∧
    length tours = Z.to_nat (ants p) ∧
    Forall (λ tD, valid_tour (length (cities st)) tD.1 ∧
                  tour_length hypot st tD.1 = Some tD.2) tours ∧
    runIteration random hypot pow p st
    = Some {| cities := cities st;
              pher := (foldl deposit_step
                         (evaporate (rho p) (pher st),
                          (bestDist st, bestTour st)) tours).1;
              running := running st; iter := S (iter st);
              bestDist := (foldl update_best
                             (bestDist st, bestTour st) tours).1;
              bestTour := (foldl update_best
                             (bestDist st, bestTour st) tours).2;
              draws := draws st + Z.to_nat (ants p) * length (cities st) |}.
Proof.
  intros Hn.
  destruct (build_tours_valid random hypot pow p st random_range
              (Z.to_nat (ants p)) (draws st))
    as (tours & Hb & Hlen & Hall); [lia|].
  destruct (runIteration_some random hypot pow random_range p st Hn)
    as (tours' & d & Hb' & _ & Hrun).
  rewrite Hb in Hb'. injection Hb' as <- <-. by exists tours.
Qed.

(** X8: the update rule of the store.  After a call on two or more cities
    the level of every key is the old level times [1 - rho] plus, for
    every ant, the amount [1 / (D + 1e-6)] of its tour once per step the
    tour makes over that edge; a missing level counts as 0. *)
Theorem pheromone_update_rule (p : Params) (st : Model) :
  2 ≤ length (cities st) →
  ∃ st' tours d,
    build_tours random hypot pow p st (Z.to_nat (ants p)) (draws st)
      = Some (tours, d) ∧
    runIteration random hypot pow p st = Some st' ∧
    ∀ k, (level (pher st') k
          == level (pher st) k * (1 - rho p) + deposit_total k tours)%Q.
Proof.
  intros Hn. destruct (runIteration_tours p st Hn)
    as (tours & Hb & _ & _ & Hrun).
  eexists _, tours, _. split; [exact Hb|]. split; [exact Hrun|].
  intros k. cbn [pher]. by rewrite deposit_fold_level, level_evaporate.
Qed.

Lemma runIteration_frame (p : Params) (st : Model) :
  ∃ st', runIteration random hypot pow p st = Some st' ∧
    cities st' = cities st ∧ running st' = running st ∧
    (length (cities st) < 2 → st' = st) ∧
    (2 ≤ length (cities st) →
       iter st' = S (iter st) ∧
       draws st' = draws st + Z.to_nat (ants p) * length (cities st)).
Proof.
  destruct (decide (length (cities st) < 2)) as [Hn|Hn].
  - exists st. rewrite runIteration_guard by done.
    repeat split; try done; lia.
  - destruct (runIteration_tours p st) as (tours & _ & _ & _ & Hrun); [lia|].
    eexists. split; [exact Hrun|]. repeat split; try done; lia.
Qed.




Lemma runIteration_canonical (p : Params) (st : Model) :
  canonical_store st →
  ∃ st', runIteration random hypot pow p st = Some st' ∧ canonical_store st'.
Proof.
  intros Hcan. destruct (decide (length (cities st) < 2)) as [Hn|Hn].
  { exists st. by rewrite runIteration_guard. }
  destruct (runIteration_tours p st) as (tours & _ & _ & Hall & Hrun); [lia|].
  eexists. split; [exact Hrun|]. unfold canonical_store. cbn [pher cities].
  apply deposit_fold_dom.
  - by rewrite evaporate_fmap, dom_fmap_L.
  - eapply Forall_impl; [exact Hall|]. intros tD [Hv _] k Hk.
    apply elem_of_list_to_set. eapply valid_tour_keys; [|exact Hv|exact Hk].
    lia.
Qed.

(** X11: the set of keys of the store is an invariant.  A store that
    holds exactly the keys [initPheromones] makes for the cities of the
    state holds exactly these keys after any sequence of calls: a deposit
    only ever touches the edge of two different cities. *)
Theorem store_keys_invariant (ps : list Params) (st : Model) :
  canonical_store st →
  ∃ st', run_many random hypot pow ps st = Some st' ∧
         canonical_store st' ∧ size (pher st') = size (pher st).
Proof.
  revert st. induction ps as [|p ps IH]; intros st Hcan.
  - by exists st.
  - destruct (runIteration_canonical p st Hcan) as (st1 & Hrun & Hcan1).
    destruct (IH st1 Hcan1) as (st' & Hmany & Hcan' & Hsize).
    exists st'. split; [cbn [run_many]; by rewrite Hrun|]. split; [done|].
    rewrite Hsize. rewrite <- !size_dom, Hcan1, Hcan.
    destruct (runIteration_frame p st) as (st1' & Hrun' & Hc & _).
    rewrite Hrun in Hrun'. injection Hrun' as <-. by rewrite Hc.
Qed.

Lemma runIteration_consistent (p : Params) (st : Model) :
  best_consistent hypot st →
  ∃ st', runIteration random hypot pow p st = Some st' ∧
    best_consistent hypot st' ∧
    (2 ≤ length (cities st) → (0 < ants p)%Z → is_Some (bestTour st')).
Proof.
  intros Hcon. destruct (decide (length (cities st) < 2)) as [Hn|Hn].
  { exists st. rewrite runIteration_guard by done. split; [done|].
    split; [done|lia]. }
  destruct (runIteration_tours p st) as (tours & _ & Hlen & Hall & Hrun);
    [lia|].
  eexists. split; [exact Hrun|].
  assert (record_consistent hypot (cities st)
            (foldl update_best (bestDist st, bestTour st) tours)) as Hrec.
  { apply record_consistent_fold; [exact Hcon|].
    eapply Forall_impl; [exact Hall|]. by intros [t D] [Hv HD]. }
  split.
  - unfold best_consistent. cbn [cities bestDist bestTour].
    by destruct (foldl update_best _ tours).
  - intros _ Hants. cbn [bestTour].
    assert (tours ≠ []) as Hne.
    { intros ->. simpl in Hlen. lia. }
    pose proof (best_fold_found tours (bestDist st, bestTour st) Hne) as Hnum.
    destruct (foldl update_best _ tours) as [[|D] [t|]]; done.
Qed.

Lemma best_consistent_redraw (st : Model) :
  best_consistent hypot st → is_Some (redraw_best st).
Proof.
  unfold best_consistent, record_consistent, redraw_best.
  destruct (bestDist st) as [|D], (bestTour st) as [t|]; try done.
  intros [Hv _]. by apply drawTour_valid.
Qed.

(** X12: the best-tour record stays consistent.  If the record is empty,
    or holds a closed tour over the cities of the state together with the
    length of that tour, then so it does after any sequence of calls, and
    drawing the best tour reads only cities that exist; after a call
    with at least one ant on two or more cities a best tour is present. *)
Theorem best_record_invariant (ps : list Params) (st : Model) :
  best_consistent hypot st →
  (∃ st', run_many random hypot pow ps st = Some st' ∧
          best_consistent hypot st' ∧ is_Some (redraw_best st')) ∧
  (∀ p, 2 ≤ length (cities st) → (0 < ants p)%Z →
     ∃ st', runIteration random hypot pow p st = Some st' ∧
            is_Some (bestTour st') ∧ bestDist st' ≠ Infinity).
Proof.
  intros Hcon. split.
  - revert st Hcon. induction ps as [|p ps IH]; intros st Hcon.
    + exists st. split; [done|]. split; [done|].
      by apply best_consistent_redraw.
    + destruct (runIteration_consistent p st Hcon) as (st1 & Hrun & Hcon1 & _).
      destruct (IH st1 Hcon1) as (st' & Hmany & Hcon' & Hdraw).
      exists st'. split; [cbn [run_many]; by rewrite Hrun|]. done.
  - intros p Hn Hants.
    destruct (runIteration_consistent p st Hcon) as (st' & Hrun & Hcon' & Hsome).
    exists st'. split; [done|]. destruct (Hsome Hn Hants) as [t Ht].
    split; [by eexists|].
    unfold best_consistent, record_consistent in Hcon'. rewrite Ht in Hcon'.
    by destruct (bestDist st').
Qed.

End IterationInvariants.

Lemma pheromone_update_rule_witness :
  ∃ st' tours d,
    build_tours coin hypot6 pow_int square_params square_model
      (Z.to_nat (ants square_params)) (draws square_model) = Some (tours, d) ∧
    runIteration coin hypot6 pow_int square_params square_model = Some st' ∧
    ∀ k, (level (pher st') k
          == level (pher square_model) k * (1 - rho square_params)
             + deposit_total k tours)%Q.
Proof.
  apply (pheromone_update_rule coin hypot6 pow_int coin_range
           square_params square_model).
  simpl. lia.
Defined.



Lemma store_keys_invariant_witness :
  ∃ st', run_many coin hypot6 pow_int [square_params; triangle_params]
           square_model = Some st' ∧
         canonical_store st' ∧ size (pher st') = size (pher square_model).
Proof.
  apply (store_keys_invariant coin hypot6 pow_int coin_range
           [square_params; triangle_params] square_model).
  apply initPheromones_dom.
Defined.

Lemma best_record_invariant_witness :
  (∃ st', run_many coin hypot6 pow_int [square_params; triangle_params]
            square_model = Some st' ∧
          best_consistent hypot6 st' ∧ is_Some (redraw_best st')) ∧
  (∀ p, 2 ≤ length (cities square_model) → (0 < ants p)%Z →
     ∃ st', runIteration coin hypot6 pow_int p square_model = Some st' ∧
            is_Some (bestTour st') ∧ bestDist st' ≠ Infinity).
Proof.
  apply (best_record_invariant coin hypot6 pow_int coin_range
           [square_params; triangle_params] square_model).
  exact I.
Defined.

(** ** Roulette selection by cumulative weight *)






(** ** Editing the city set *)

Lemma initPheromones_size n : size (initPheromones n) = n * (n - 1) / 2.
Proof.
  rewrite initPheromones_fill, fill_size, map_size_empty.
  - by rewrite init_keys_length.
  - apply init_keys_NoDup.
  - intros k _. apply lookup_empty.
Qed.

Section CityEdits.

Variable hypot : Q → Q → Q.

Lemma near_index_some x y cs : ∀ i j,
  near_index hypot x y cs i = Some j →
  j < i ∧
  (∃ c, cs !! j = Some c ∧ near hypot x y c = true) ∧
  (∀ j' c, j < j' < i → cs !! j' = Some c → near hypot x y c = false).
Proof.
  induction i as [|i IH]; intros j; [done|]. cbn [near_index].
  destruct (cs !! i) as [c|] eqn:Hc; [|done].
  fold (near hypot x y c). destruct (near hypot x y c) eqn:Hn.
  - intros [= <-]. split; [lia|]. split; [by exists c|]. intros; lia.
  - intros Hj. destruct (IH j Hj) as (Hlt & Hex & Hfar).
    split; [lia|]. split; [done|]. intros j' c' Hj' Hc'.
    destruct (decide (j' = i)) as [->|Hne]; [congruence|].
    apply (Hfar j'); [lia|done].
Qed.

Lemma near_index_none x y cs : ∀ i,
  i ≤ length cs →
  near_index hypot x y cs i = None ↔
  ∀ j c, j < i → cs !! j = Some c → near hypot x y c = false.
Proof.
  induction i as [|i IH]; intros Hi.
  - split; [intros; lia|done].
  - cbn [near_index].
    destruct (lookup_lt_is_Some_2 cs i ltac:(lia)) as [c Hc]. rewrite Hc.
    fold (near hypot x y c). destruct (near hypot x y c) eqn:Hn.
    + split; [done|]. intros Hall. specialize (Hall i c ltac:(lia) Hc).
      congruence.
    + rewrite IH by lia. split.
      * intros Hall j c' Hj Hc'.
        destruct (decide (j = i)) as [->|Hne]; [congruence|].
        apply (Hall j); [lia|done].
      * intros Hall j c' Hj. apply Hall. lia.
Qed.

(** X13: what a click does to the cities.  When no city lies within 10
    of the click, the new city is appended, so every city keeps its
    index.  When some city does, exactly one is removed: the one with the
    largest index among those within 10; the others keep their order.
    Neither the iteration counter nor the [running] flag is touched. *)
Theorem click_cities (x y : Q) (st : Model) :
  let st' := click hypot x y st in
  (Forall (λ c, near hypot x y c = false) (cities st) →
     cities st' = cities st ++ [mkCity x y]) ∧
  (Exists (λ c, near hypot x y c = true) (cities st) →
     ∃ j c, cities st !! j = Some c ∧ near hypot x y c = true ∧
            (∀ j' c', j < j' → cities st !! j' = Some c' →
                      near hypot x y c' = false) ∧
            cities st' = delete j (cities st) ∧
            length (cities st') = length (cities st) - 1) ∧
  iter st' = iter st ∧ running st' = running st.
Proof.
  cbn zeta. unfold click. cbn [cities iter running].
  split; [|split; [|done]].
  - intros Hfar.
    destruct (near_index hypot x y (cities st) (length (cities st)))
      eqn:Hi; [|done].
    apply near_index_some in Hi as (_ & (c & Hc & Hn) & _).
    rewrite Forall_forall in Hfar.
    rewrite (Hfar c) in Hn; [done|]. by eapply list_elem_of_lookup_2.
  - intros Hex.
    destruct (near_index hypot x y (cities st) (length (cities st)))
      as [j|] eqn:Hi.
    + apply near_index_some in Hi as (Hlt & (c & Hc & Hn) & Hfar).
      exists j, c. split; [done|]. split; [done|]. split.
      * intros j' c' Hj' Hc'. apply (Hfar j'); [|done].
        apply lookup_lt_Some in Hc'. lia.
      * split; [done|]. apply length_delete. by eexists.
    + apply Exists_exists in Hex as (c & Hin & Hn).
      apply list_elem_of_lookup_1 in Hin as [j Hj].
      pose proof (proj1 (near_index_none x y (cities st) _ (Nat.le_refl _)) Hi)
        as Hall.
      rewrite (Hall j c) in Hn; [done| |done]. by eapply lookup_lt_Some.
Qed.

Hypothesis hypot_zero :
  ∀ dx dy, (dx == 0)%Q → (dy == 0)%Q → (hypot dx dy < 10)%Q.

(** X14: a click on a free spot followed by a click on the same spot
    gives back the cities as they were: the city just added is the last
    one, the first the descending scan looks at.  The store is the fresh
    one for these cities, whatever it held before. *)
Theorem click_twice (x y : Q) (st : Model) :
  Forall (λ c, near hypot x y c = false) (cities st) →
  cities (click hypot x y (click hypot x y st)) = cities st ∧
  pher (click hypot x y (click hypot x y st))
  = initPheromones (length (cities st)).
Proof.
  intros Hfar.
  assert (near_index hypot x y (cities st) (length (cities st)) = None) as H1.
  { apply near_index_none; [done|]. intros j c _ Hc.
    rewrite Forall_forall in Hfar. apply Hfar.
    by eapply list_elem_of_lookup_2. }
  assert (cities (click hypot x y st) = cities st ++ [mkCity x y]) as Hadd.
  { unfold click. cbn [cities]. by rewrite H1. }
  assert (near_index hypot x y (cities st ++ [mkCity x y])
            (length (cities st ++ [mkCity x y])) = Some (length (cities st)))
    as H2.
  { rewrite length_app. cbn [length]. rewrite Nat.add_1_r. cbn [near_index].
    rewrite lookup_app_r, Nat.sub_diag by lia. cbn [lookup list_lookup cx cy].
    assert (Qltb (hypot (x - x) (y - y)) 10 = true) as ->; [|done].
    apply Qltb_lt, hypot_zero; ring. }
  assert (cities (click hypot x y (click hypot x y st)) = cities st) as Hback.
  { unfold click at 1. cbn [cities]. rewrite Hadd, H2.
    rewrite (delete_middle (cities st) [] (mkCity x y)). apply app_nil_r. }
  split; [done|]. unfold click at 1. cbn [pher].
  unfold click at 1 in Hback. cbn [cities] in Hback. by rewrite Hback.
Qed.

End CityEdits.

Lemma hypot6_zero : ∀ dx dy, (dx == 0)%Q → (dy == 0)%Q → (hypot6 dx dy < 10)%Q.
Proof.
  intros dx dy Hx Hy. unfold hypot6.
  assert ((dx * dx + dy * dy) * 1000000000000 == 0)%Q as H0.
  { rewrite Hx, Hy. reflexivity. }
  rewrite (Qfloor_comp _ _ H0). reflexivity.
Qed.

Lemma click_cities_witness :
  let st' := click hypot6 0 0 square_model in
  (Forall (λ c, near hypot6 0 0 c = false) (cities square_model) →
     cities st' = cities square_model ++ [mkCity 0 0]) ∧
  (Exists (λ c, near hypot6 0 0 c = true) (cities square_model) →
     ∃ j c, cities square_model !! j = Some c ∧ near hypot6 0 0 c = true ∧
            (∀ j' c', j < j' → cities square_model !! j' = Some c' →
                      near hypot6 0 0 c' = false) ∧
            cities st' = delete j (cities square_model) ∧
            length (cities st') = length (cities square_model) - 1) ∧
  iter st' = iter square_model ∧ running st' = running square_model.
Proof. exact (click_cities hypot6 0 0 square_model). Defined.

Lemma click_twice_witness :
  cities (click hypot6 50 50 (click hypot6 50 50 square_model))
  = cities square_model ∧
  pher (click hypot6 50 50 (click hypot6 50 50 square_model))
  = initPheromones (length (cities square_model)).
Proof.
  apply (click_twice hypot6 hypot6_zero 50 50 square_model).
  repeat constructor.
Defined.

(** ** Random cities and the reset button *)

Section RandomCities.

Variable random : nat → Q.

Hypothesis random_range : ∀ i, (0 <= random i)%Q ∧ (random i < 1)%Q.

Lemma randomizeCities_bounds (W H : Q) (k : nat) (st : Model) :
  (0 <= W)%Q → (0 <= H)%Q →
  Forall (λ c, (32 <= cx c)%Q ∧ (cx c <= 32 + W)%Q ∧
               (32 <= cy c)%Q ∧ (cy c <= 32 + H)%Q)
         (cities (randomizeCities random W H k st)).
Proof.
  intros HW HH. unfold randomizeCities. cbn [cities].
  apply Forall_fmap, Forall_forall. intros i _.
  cbn [compose cx cy].
  destruct (random_range (draws st + 2 * i)) as [? ?].
  destruct (random_range (draws st + 2 * i + 1)) as [? ?].
  generalize dependent (random (draws st + 2 * i)).
  generalize dependent (random (draws st + 2 * i + 1)).
  intros u ? ? u' ? ?. repeat split; nra.
Qed.

(** X15: [randomizeCities(k)] makes exactly [k] cities, each inside the
    canvas at 32 or more from its left and top edge and no further right
    or down than the padded width and height allow; it consumes two random
    numbers per city and leaves a store with the keys of these cities, all
    at level 1. *)
Theorem randomizeCities_in_canvas (W H : Q) (k : nat) (st : Model) :
  (0 <= W)%Q → (0 <= H)%Q →
  let st' := randomizeCities random W H k st in
  length (cities st') = k ∧
  Forall (λ c, (32 <= cx c)%Q ∧ (cx c <= 32 + W)%Q ∧
               (32 <= cy c)%Q ∧ (cy c <= 32 + H)%Q) (cities st') ∧
  draws st' = draws st + 2 * k ∧
  canonical_store st' ∧
  (∀ key v, pher st' !! key = Some v → v = 1%Q).
Proof.
  intros HW HH st'.
  assert (length (cities st') = k) as Hlen.
  { unfold st', randomizeCities. cbn [cities].
    by rewrite length_fmap, length_seq. }
  split; [done|]. split; [by apply randomizeCities_bounds|].
  split; [done|]. split.
  - unfold canonical_store. unfold st' at 1, randomizeCities at 1.
    cbn [pher]. apply initPheromones_dom.
  - intros key v. unfold st', randomizeCities. cbn [pher].
    rewrite initPheromones_lookup. case_decide; congruence.
Qed.

(** X16: the reset button, [resetModel] followed by [randomizeCities(12)],
    leaves a fresh state whatever came before: 12 cities, 66 levels of 1,
    no best tour, iteration 0, not running.  The state satisfies both
    invariants of an iteration, the keys of the store and the consistency
    of the best-tour record. *)
Theorem reset_click_fresh (hypot : Q → Q → Q) (W H : Q) (st : Model) :
  let st' := reset_click random W H st in
  length (cities st') = 12 ∧ size (pher st') = 66 ∧
  bestDist st' = Infinity ∧ bestTour st' = None ∧
  iter st' = 0 ∧ running st' = false ∧
  canonical_store st' ∧ best_consistent hypot st'.
Proof.
  cbn zeta. unfold reset_click, randomizeCities, resetModel.
  unfold canonical_store, best_consistent.
  cbn [cities pher bestDist bestTour iter running record_consistent].
  rewrite length_fmap, length_seq, initPheromones_size.
  repeat split; first [done | apply initPheromones_dom].
Qed.

End RandomCities.

Lemma randomizeCities_in_canvas_witness :
  let st' := randomizeCities coin 600 400 12 lone_model in
  length (cities st') = 12 ∧
  Forall (λ c, (32 <= cx c)%Q ∧ (cx c <= 32 + 600)%Q ∧
               (32 <= cy c)%Q ∧ (cy c <= 32 + 400)%Q) (cities st') ∧
  draws st' = draws lone_model + 2 * 12 ∧
  canonical_store st' ∧
  (∀ key v, pher st' !! key = Some v → v = 1%Q).
Proof.
  apply (randomizeCities_in_canvas coin coin_range 600 400 12 lone_model);
    discriminate.
Defined.

(** ** Drawing *)

Section DrawingFacts.

Variable tanh : Q → Q.

Hypothesis tanh_range : ∀ p, (0 <= p)%Q → (0 <= tanh p)%Q ∧ (tanh p <= 1)%Q.

Lemma edge_style_bounds (ph : gmap string Q) (k : string) :
  (0.06 <= (edge_style tanh ph k).1)%Q ∧ ((edge_style tanh ph k).1 <= 0.9)%Q ∧
  (1 <= (edge_style tanh ph k).2)%Q ∧ ((edge_style tanh ph k).2 <= 5.5)%Q.
Proof.
  unfold edge_style. cbv zeta. cbn [fst snd].
  destruct (tanh_range (Qmax (js_or (ph !! k) 0) 0)) as [Hlo Hhi];
    [apply Q.le_max_r|].
  generalize dependent (tanh (Qmax (js_or (ph !! k) 0) 0)). intros u Hlo Hhi.
  split; [apply Q.min_glb; lra|]. split; [apply Q.le_min_l|]. split; lra.
Qed.

Lemma drawEdges_some (st : Model) :
  ∃ strokes, drawEdges tanh st = Some strokes ∧
    length strokes = length (cities st) * (length (cities st) - 1) / 2 ∧
    Forall (λ s, ∃ k, (s_alpha s, s_width s) = edge_style tanh (pher st) k)
           strokes.
Proof.
  unfold drawEdges.
  destruct (mapM _ (pairs_from (length (cities st))
                      (seq 0 (length (cities st))))) as [strokes|] eqn:Hm.
  - exists strokes. split; [done|]. split.
    + apply length_mapM in Hm. rewrite <- Hm.
      pose proof (pairs_from_length (length (cities st)) 0) as Hlen.
      simpl in Hlen. apply Nat.div_unique_exact; lia.
    + apply mapM_Some_1 in Hm.
      eapply Forall2_Forall_r; [exact Hm|]. apply Forall_forall.
      intros e _ s. cbv zeta.
      destruct (cities st !! e.1) as [a|]; [|done].
      destruct (cities st !! e.2) as [b|]; [|done]. simpl.
      intros [= <-]. simpl. by exists (edgeKey e.1 e.2).
  - apply mapM_None_1, Exists_exists in Hm as ([i j] & Hin & Hnone).
    apply elem_of_pairs_from in Hin as [_ Hij]. cbv zeta in Hnone.
    simpl in Hnone.
    destruct (lookup_lt_is_Some_2 (cities st) i ltac:(lia)) as [a Ha].
    destruct (lookup_lt_is_Some_2 (cities st) j ltac:(lia)) as [b Hb].
    rewrite Ha, Hb in Hnone. done.
Qed.

(** X17: [drawEdges] never reads a missing city and strokes one line per
    pair of cities, [n*(n-1)/2] in all.  Whatever the store holds, a
    missing, zero or negative level included, the opacity of a line lies
    between 0.06 and 0.9 and its width between 1 and 5.5. *)
Theorem drawEdges_strokes (st : Model) :
  ∃ strokes, drawEdges tanh st = Some strokes ∧
    length strokes = length (cities st) * (length (cities st) - 1) / 2 ∧
    Forall (λ s, (0.06 <= s_alpha s)%Q ∧ (s_alpha s <= 0.9)%Q ∧
                 (1 <= s_width s)%Q ∧ (s_width s <= 5.5)%Q) strokes.
Proof.
  destruct (drawEdges_some st) as (strokes & Hd & Hlen & Hall).
  exists strokes. split; [done|]. split; [done|].
  eapply Forall_impl; [exact Hall|]. intros s [k Hk].
  pose proof (edge_style_bounds (pher st) k) as Hb. rewrite <- Hk in Hb.
  exact Hb.
Qed.

End DrawingFacts.

Lemma tanh_rat_range : ∀ p, (0 <= p)%Q → (0 <= tanh_rat p)%Q ∧ (tanh_rat p <= 1)%Q.
Proof.
  intros p Hp. unfold tanh_rat. split.
  - apply Qle_shift_div_l; lra.
  - apply Qle_shift_div_r; lra.
Qed.

Lemma drawEdges_strokes_witness :
  ∃ strokes, drawEdges tanh_rat square_model = Some strokes ∧
    length strokes
    = length (cities square_model) * (length (cities square_model) - 1) / 2 ∧
    Forall (λ s, (0.06 <= s_alpha s)%Q ∧ (s_alpha s <= 0.9)%Q ∧
                 (1 <= s_width s)%Q ∧ (s_width s <= 5.5)%Q) strokes.
Proof.
  exact (drawEdges_strokes tanh_rat tanh_rat_range square_model).
Defined.

(** ** The animation loop and its buttons *)

Lemma msPerIter_bounds (speed : Q) :
  (0 < msPerIter speed)%Q ∧ (msPerIter speed <= 2400)%Q.
Proof.
  unfold msPerIter. pose proof (Q.le_max_l 0.25 speed) as Hm.
  generalize dependent (Qmax 0.25 speed). intros m Hm. split.
  - apply Qlt_shift_div_l; lra.
  - apply Qle_shift_div_r; lra.
Qed.

Section AnimationFacts.

Variable random : nat → Q.
Variable hypot : Q → Q → Q.
Variable pow : Q → Q → Q.
Variable tanh : Q → Q.

Hypothesis random_range : ∀ i, (0 <= random i)%Q ∧ (random i < 1)%Q.

Lemma runIteration_drawn_some (p : Params) (st : Model) :
  best_consistent hypot st →
  ∃ st', runIteration random hypot pow p st = Some st' ∧
         runIteration_drawn random hypot pow tanh p st = Some st' ∧
         best_consistent hypot st'.
Proof.
  intros Hcon.
  destruct (runIteration_consistent random hypot pow random_range p st Hcon)
    as (st' & Hrun & Hcon' & _).
  exists st'. split; [done|]. split; [|done].
  unfold runIteration_drawn. case_decide as Hn.
  - rewrite runIteration_guard in Hrun by done. by injection Hrun as ->.
  - rewrite Hrun. simpl. unfold redrawAll.
    destruct (drawEdges_some tanh st') as (strokes & -> & _).
    destruct (best_consistent_redraw hypot st' Hcon') as [segs ->]. done.
Qed.

(** X18: the pace of the animation loop.  The time between iterations,
    [600 / max(0.25, speed)], is positive and at most 2400 for every value
    of the speed slider.  From a running state with a consistent best-tour
    record a frame never throws and always requests the next frame; it
    leaves the model and the clock alone when less than that time has
    passed since the last tick, and otherwise runs exactly one call of
    [runIteration] and sets the clock to the time of the frame. *)
Theorem animate_paces (speed : Q) (p : Params) (time : Q) (dr : Driver) :
  best_consistent hypot (model dr) →
  running (model dr) = true →
  ((0 < msPerIter speed)%Q ∧ (msPerIter speed <= 2400)%Q) ∧
  ((time - lastTick dr < msPerIter speed)%Q →
     animate random hypot pow tanh speed p time dr
     = Some {| model := model dr; lastTick := lastTick dr;
               frame_requested := true |}) ∧
  ((msPerIter speed <= time - lastTick dr)%Q →
     ∃ st', runIteration random hypot pow p (model dr) = Some st' ∧
            animate random hypot pow tanh speed p time dr
            = Some {| model := st'; lastTick := time;
                      frame_requested := true |}).
Proof.
  intros Hcon Hrun. split; [apply msPerIter_bounds|]. split.
  - intros Hlt. unfold animate. rewrite Hrun. cbn [negb].
    destruct (Qle_bool (msPerIter speed) (time - lastTick dr)) eqn:Hle.
    { apply Qle_bool_iff in Hle. lra. }
    simpl. by destruct (best_consistent_redraw hypot _ Hcon) as [segs ->].
  - intros Hle. apply Qle_bool_iff in Hle.
    destruct (runIteration_drawn_some p (model dr) Hcon)
      as (st' & Hit & Hdrawn & Hcon').
    exists st'. split; [done|]. unfold animate. rewrite Hrun. cbn [negb].
    rewrite Hle, Hdrawn. simpl.
    by destruct (best_consistent_redraw hypot _ Hcon') as [segs ->].
Qed.

(** X19: the buttons.  After Pause the next frame stops the loop: it runs
    no iteration, changes nothing in the model and requests no further
    frame.  Start does nothing on fewer than two cities, and a second
    Start changes nothing, so the clock of a running loop is not reset. *)
Theorem buttons (speed : Q) (p : Params) (time now now' : Q) (dr : Driver) :
  animate random hypot pow tanh speed p time (pause_click dr)
  = Some {| model := set_running false (model dr); lastTick := lastTick dr;
            frame_requested := false |} ∧
  (length (cities (model dr)) < 2 → start_click now dr = dr) ∧
  start_click now' (start_click now dr) = start_click now dr ∧
  (2 ≤ length (cities (model dr)) →
     running (model (start_click now dr)) = true ∧
     frame_requested (start_click now dr)
     = (frame_requested dr || negb (running (model dr)))).
Proof.
  split; [done|]. split; [|split].
  - intros Hn. unfold start_click. by rewrite decide_True.
  - unfold start_click. destruct (decide (length (cities (model dr)) < 2)) as [Hn|Hn].
    + by rewrite decide_True.
    + destruct (running (model dr)) eqn:Hr.
      * rewrite decide_False by done. by rewrite Hr.
      * cbn [model set_running cities running].
        by rewrite decide_False by done.
  - intros Hn. unfold start_click. rewrite decide_False by lia.
    destruct (running (model dr)) eqn:Hr.
    + split; [done|]. by rewrite orb_false_r.
    + split; [done|]. cbn [frame_requested]. by rewrite orb_true_r.
Qed.

End AnimationFacts.

Lemma animate_paces_witness :
  ((0 < msPerIter 2)%Q ∧ (msPerIter 2 <= 2400)%Q) ∧
  ((1000 - 900 < msPerIter 2)%Q →
     animate coin hypot6 pow_int tanh_rat 2 square_params 1000
       (mkDriver (set_running true square_model) 900 true)
     = Some {| model := set_running true square_model; lastTick := 900;
               frame_requested := true |}) ∧
  ((msPerIter 2 <= 1000 - 900)%Q →
     ∃ st', runIteration coin hypot6 pow_int square_params
              (set_running true square_model) = Some st' ∧
            animate coin hypot6 pow_int tanh_rat 2 square_params 1000
              (mkDriver (set_running true square_model) 900 true)
            = Some {| model := st'; lastTick := 1000;
                      frame_requested := true |}).
Proof.
  apply (animate_paces coin hypot6 pow_int tanh_rat coin_range 2
           square_params 1000
           (mkDriver (set_running true square_model) 900 true)).
  - exact I.
  - reflexivity.
Defined.
